(** * splitMessage: the message chunker of the Discord bot (src/index.js)

    The bot relays an answer of arbitrary length to a chat platform whose
    messages hold at most 2000 characters.  [splitMessage] cuts the answer
    into chunks, preferring blank lines as cut points and slicing a
    paragraph by force when it is too long on its own.

    A JavaScript string is a finite sequence of code units; the chunker
    only measures, concatenates, slices and splits strings, and the only
    code unit it ever inspects is the line feed.  Strings are therefore
    lists of characters, lengths and indices are integers ([Z]), and the
    [while] loop of the source, which need not terminate for every
    [maxLen], runs on fuel. *)

From Stdlib Require Import List ZArith Lia Bool Ascii String.
Import ListNotations.

Open Scope Z_scope.

(** ** JavaScript string primitives used by the chunker *)

Module Js.

Definition str : Type := list ascii.

(** A string literal. *)
Definition lit (s : string) : str := list_ascii_of_string s.

(** [s.length] *)
Definition len (s : str) : Z := Z.of_nat (List.length s).

(** Truthiness of a string: only the empty string is falsy. *)
Definition truthy (s : str) : bool :=
  match s with
  | [] => false
  | _ :: _ => true
  end.

(** The line feed and the separator ['\n\n']. *)
Definition nl : ascii := ascii_of_nat 10.
Definition sep : str := [nl; nl].

Definition is_nl (c : ascii) : bool := Ascii.eqb c nl.

(** Index normalisation of [String.prototype.slice]: a negative index
    counts from the end, and everything is clamped to [0 .. n]. *)
Definition rel_index (n k : Z) : Z :=
  if k <? 0 then Z.max (n + k) 0 else Z.min k n.

(** [s.slice(start, stop)] *)
Definition slice (s : str) (start stop : Z) : str :=
  let from := rel_index (len s) start in
  let to := rel_index (len s) stop in
  firstn (Z.to_nat (to - from)) (skipn (Z.to_nat from) s).

(** Puts a character in front of the first segment of a split. *)
Definition cons_head (c : ascii) (l : list str) : list str :=
  match l with
  | [] => [[c]]
  | p :: ps => (c :: p) :: ps
  end.

(** [s.split('\n\n')]: the separator is searched from left to right, and
    the search resumes after each occurrence, so matches do not overlap.
    The empty string splits into one empty segment. *)
Fixpoint split (s : str) : list str :=
  match s with
  | [] => [[]]
  | c :: t =>
      match t with
      | d :: r =>
          if is_nl c && is_nl d then [] :: split r
          else cons_head c (split t)
      | [] => [[c]]
      end
  end.

(** [s.includes('\n\n')] *)
Fixpoint includes_sep (s : str) : bool :=
  match s with
  | [] => false
  | c :: t =>
      match t with
      | d :: _ => (is_nl c && is_nl d) || includes_sep t
      | [] => false
      end
  end.

(** [s.endsWith('\n')] *)
Fixpoint ends_with_nl (s : str) : bool :=
  match s with
  | [] => false
  | c :: t =>
      match t with
      | [] => is_nl c
      | _ :: _ => ends_with_nl t
      end
  end.

(** [l.join('\n\n')] *)
Fixpoint join (l : list str) : str :=
  match l with
  | [] => []
  | [p] => p
  | p :: ps => p ++ sep ++ join ps
  end.

End Js.

Import Js.

(** ** The chunker *)

Definition bind {A B : Type} (m : option A) (k : A -> option B) : option B :=
  match m with
  | Some a => k a
  | None => None
  end.

Notation "'do' x <- m ; k" := (bind m (fun x => k))
  (at level 10, x name, m at level 100, k at level 200).

(** The two variables the loop of [splitMessage] updates. *)
Record state : Type := mkState { parts : list str; chunk : str }.

(** The force-slice loop:
    [while (i < p.length) { parts.push(p.slice(i, i + maxLen)); i += maxLen; }]
    One unit of fuel pays for one evaluation of the loop condition. *)
Fixpoint force_slice (fuel : nat) (p : str) (maxLen i : Z) (out : list str)
  : option (list str) :=
  match fuel with
  | O => None
  | S fuel' =>
      if i <? len p
      then force_slice fuel' p maxLen (i + maxLen) (out ++ [slice p i (i + maxLen)])
      else Some out
  end.

(** The body of [for (const p of paragraphs)]. *)
Definition body (fuel : nat) (maxLen : Z) (st : state) (p : str) : option state :=
  let piece := if truthy (chunk st) then sep ++ p else p in
  if maxLen <? len (chunk st ++ piece) then
    if truthy (chunk st) then
      Some (mkState (parts st ++ [chunk st]) p)
    else
      do out <- force_slice fuel p maxLen 0 (parts st);
      Some (mkState out [])
  else
    Some (mkState (parts st) (chunk st ++ piece)).

Fixpoint for_of (fuel : nat) (maxLen : Z) (paragraphs : list str) (st : state)
  : option state :=
  match paragraphs with
  | [] => Some st
  | p :: rest =>
      do st' <- body fuel maxLen st p;
      for_of fuel maxLen rest st'
  end.

(** [splitMessage(text, maxLen)].  [fuel] bounds the number of iterations
    of each force-slice loop; [None] stands for a loop that is still
    running when the fuel is spent. *)
Definition splitMessage (fuel : nat) (text : str) (maxLen : Z)
  : option (list str) :=
  if negb (truthy text) then Some []
  else if len text <=? maxLen then Some [text]
  else
    do st <- for_of fuel maxLen (split text) (mkState [] []);
    Some (if truthy (chunk st) then parts st ++ [chunk st] else parts st).

(** The default of the second parameter. *)
Definition default_maxLen : Z := 2000.

(** ** The command handler

    The handler of [interactionCreate] (src/index.js, lines 131 to 180)
    talks to the chat platform through awaited calls, each of which the
    platform may reject.  The model runs the handler against a platform
    given as an oracle: which calls resolve, what [interaction.replied]
    reads, what the answer producer gives.  It returns the calls in the
    order in which they are issued and whether the promise of the handler
    is fulfilled or rejected.  Reading the option of the command and
    building the attachment of the error notice issue no call and are
    left out. *)

(** The two error notices of the [catch] blocks: the one sent with the
    file [error.txt] (lines 166 and 168) and the plain one (lines 173
    and 175). *)
Inductive notice : Type :=
| ErrorWithFile
| ErrorPlain.

Inductive call : Type :=
| DeferReply                      (* interaction.deferReply() *)
| EditReply (content : str)       (* interaction.editReply(content) *)
| FollowUp (content : str)        (* interaction.followUp({ content }) *)
| Reply (n : notice)              (* interaction.reply({ content: notice, ... }) *)
| EditReplyNotice (n : notice).   (* interaction.editReply(notice) *)

Record platform : Type := mkPlatform {
  (** [interaction.isChatInputCommand()] *)
  isChatInputCommand : bool;
  (** [interaction.commandName] *)
  commandName : str;
  (** what [await askGemini(...)] gives: the answer, or [None] when it
      throws *)
  gemini : option str;
  (** whether the call, issued after the calls of the list, resolves *)
  resolves : list call -> call -> bool;
  (** [interaction.replied], read after the calls of the list *)
  replied : list call -> bool
}.

(** How the promise of the handler ends. *)
Inductive outcome : Type :=
| Fulfilled
| Rejected.

(** [a === b] on strings. *)
Definition str_eqb (a b : str) : bool :=
  if list_eq_dec ascii_dec a b then true else false.

(** [chunks.shift()]: the first element, if any, and what remains of the
    array. *)
Definition shift (l : list str) : option str * list str :=
  match l with
  | [] => (None, [])
  | x :: rest => (Some x, rest)
  end.

(** [x || '']: [undefined] and the empty string give the empty string. *)
Definition or_empty (x : option str) : str :=
  match x with
  | Some s => if truthy s then s else []
  | None => []
  end.

Definition no_response : str := lit "No response from Gemini.".

(** One call: the calls issued so far with this one, and whether it
    resolves. *)
Definition issue (pf : platform) (h : list call) (c : call) : list call * bool :=
  (h ++ [c], resolves pf h c).

(** [return interaction.editReply(...)] inside [try]: the promise is
    returned without [await], so that its rejection is not caught by the
    [catch] block and becomes the rejection of the handler. *)
Definition return_call (pf : platform) (h : list call) (c : call)
  : list call * outcome :=
  let (h1, ok) := issue pf h c in
  (h1, if ok then Fulfilled else Rejected).

(** [for (const chunk of chunks) await interaction.followUp(...)]: the
    loop ends at the first rejected call. *)
Fixpoint follow_ups (pf : platform) (h : list call) (chunks : list str)
  : list call * bool :=
  match chunks with
  | [] => (h, true)
  | x :: rest =>
      let (h1, ok) := issue pf h (FollowUp x) in
      if ok then follow_ups pf h1 rest else (h1, false)
  end.

(** [if (!interaction.replied) await interaction.reply(...) else await
    interaction.editReply(...)] *)
Definition notify (pf : platform) (h : list call) (n : notice)
  : list call * bool :=
  issue pf h (if replied pf h then EditReplyNotice n else Reply n).

(** The [catch] block of lines 158 to 178: the notice with the file, and
    the plain notice when that one is rejected; a rejection of the plain
    notice is not caught. *)
Definition on_error (pf : platform) (h : list call) : list call * outcome :=
  let (h1, ok1) := notify pf h ErrorWithFile in
  if ok1 then (h1, Fulfilled)
  else
    let (h2, ok2) := notify pf h1 ErrorPlain in
    (h2, if ok2 then Fulfilled else Rejected).

Definition on_interaction (fuel : nat) (pf : platform)
  : option (list call * outcome) :=
  if negb (isChatInputCommand pf) then Some ([], Fulfilled)
  else if negb (str_eqb (commandName pf) (lit "ask")) then Some ([], Fulfilled)
  else
    let (h0, ok0) := issue pf [] DeferReply in
    if negb ok0 then Some (h0, Rejected)
    else
      match gemini pf with
      | None => Some (on_error pf h0)
      | Some answer =>
          if negb (truthy answer) then
            Some (return_call pf h0 (EditReply no_response))
          else if len answer <=? 2000 then
            Some (return_call pf h0 (EditReply answer))
          else
            do chunks <- splitMessage fuel answer 2000;
            let (first, rest) := shift chunks in
            let (h1, ok1) := issue pf h0 (EditReply (or_empty first)) in
            if negb ok1 then Some (on_error pf h1)
            else
              let (h2, ok2) := follow_ups pf h1 rest in
              if ok2 then Some (h2, Fulfilled) else Some (on_error pf h2)
      end.

(** ** Ghost annotation: where each chunk was cut

    To speak about putting the text back together one has to know, for
    every chunk, what lies between it and the chunk before it: a
    paragraph separator that the chunker dropped, or nothing, when both
    are slices of one over-long paragraph.  The annotated chunker is the
    same program with every [parts.push] recording this; forgetting the
    annotation gives [splitMessage] back ([splitMessage_erase]). *)

Inductive boundary : Type :=
| ParagraphBreak   (* the chunk starts a paragraph *)
| HardSlice.       (* the chunk continues the paragraph of the previous chunk *)

Definition mchunk : Type := (boundary * str)%type.

Record mstate : Type := mkMState { mparts : list mchunk; mchunk_buf : str }.

Definition slice_mark (i : Z) : boundary :=
  if i =? 0 then ParagraphBreak else HardSlice.

Fixpoint force_slice_marked (fuel : nat) (p : str) (maxLen i : Z)
  (out : list mchunk) : option (list mchunk) :=
  match fuel with
  | O => None
  | S fuel' =>
      if i <? len p
      then force_slice_marked fuel' p maxLen (i + maxLen)
             (out ++ [(slice_mark i, slice p i (i + maxLen))])
      else Some out
  end.

Definition body_marked (fuel : nat) (maxLen : Z) (st : mstate) (p : str)
  : option mstate :=
  let piece := if truthy (mchunk_buf st) then sep ++ p else p in
  if maxLen <? len (mchunk_buf st ++ piece) then
    if truthy (mchunk_buf st) then
      Some (mkMState (mparts st ++ [(ParagraphBreak, mchunk_buf st)]) p)
    else
      do out <- force_slice_marked fuel p maxLen 0 (mparts st);
      Some (mkMState out [])
  else
    Some (mkMState (mparts st) (mchunk_buf st ++ piece)).

Fixpoint for_of_marked (fuel : nat) (maxLen : Z) (paragraphs : list str)
  (st : mstate) : option mstate :=
  match paragraphs with
  | [] => Some st
  | p :: rest =>
      do st' <- body_marked fuel maxLen st p;
      for_of_marked fuel maxLen rest st'
  end.

(** What the last line before [return parts] pushes. *)
Definition last_flush (c : str) : list mchunk :=
  if truthy c then [(ParagraphBreak, c)] else [].

Definition splitMessage_marked (fuel : nat) (text : str) (maxLen : Z)
  : option (list mchunk) :=
  if negb (truthy text) then Some []
  else if len text <=? maxLen then Some [(ParagraphBreak, text)]
  else
    do st <- for_of_marked fuel maxLen (split text) (mkMState [] []);
    Some (mparts st ++ last_flush (mchunk_buf st)).

(** Every chunk with the separator its annotation calls for in front. *)
Fixpoint glue (l : list mchunk) : str :=
  match l with
  | [] => []
  | (ParagraphBreak, c) :: rest => sep ++ c ++ glue rest
  | (HardSlice, c) :: rest => c ++ glue rest
  end.

(** The chunks put back together: ['\n\n'] goes between two adjacent
    chunks cut at a paragraph boundary, nothing between two slices. *)
Definition rejoin (l : list mchunk) : str :=
  match l with
  | [] => []
  | (_, c) :: rest => c ++ glue rest
  end.

(** ** The loop as a transition system

    One iteration of the [for] loop takes the buffer [chunk] and a
    paragraph to the chunks it pushes and the new buffer.  The four rules
    are the four paths through the loop body for [maxLen >= 1]. *)

(** The slices the force-slice loop pushes in [n] iterations. *)
Definition mpieces (p : str) (maxLen : Z) (n : nat) : list mchunk :=
  map (fun k => (slice_mark (Z.of_nat k * maxLen),
                 slice p (Z.of_nat k * maxLen) (Z.of_nat k * maxLen + maxLen)))
      (seq 0 n).

Definition pieces (p : str) (maxLen : Z) (n : nat) : list str :=
  map (fun k => slice p (Z.of_nat k * maxLen) (Z.of_nat k * maxLen + maxLen))
      (seq 0 n).

Inductive step (maxLen : Z) : str -> str -> list mchunk -> str -> Prop :=
| step_flush c p :
    c <> [] -> maxLen < len c + 2 + len p ->
    step maxLen c p [(ParagraphBreak, c)] p
| step_slice p n :
    maxLen < len p ->
    (Z.of_nat n - 1) * maxLen < len p <= Z.of_nat n * maxLen ->
    step maxLen [] p (mpieces p maxLen n) []
| step_join c p :
    c <> [] -> len c + 2 + len p <= maxLen ->
    step maxLen c p [] (c ++ sep ++ p)
| step_start p :
    len p <= maxLen ->
    step maxLen [] p [] p.

Inductive run (maxLen : Z) : str -> list str -> list mchunk -> str -> Prop :=
| run_nil c : run maxLen c [] [] c
| run_cons c p o c1 ps o' c2 :
    step maxLen c p o c1 -> run maxLen c1 ps o' c2 ->
    run maxLen c (p :: ps) (o ++ o') c2.

(** The annotation forgotten. *)
Definition erase (st : mstate) : state :=
  mkState (map snd (mparts st)) (mchunk_buf st).

(** The three ways [splitMessage] returns. *)
Inductive returns (maxLen : Z) (text : str) : list mchunk -> Prop :=
| returns_empty :
    text = [] -> returns maxLen text []
| returns_whole :
    text <> [] -> len text <= maxLen -> returns maxLen text [(ParagraphBreak, text)]
| returns_loop o c :
    maxLen < len text -> run maxLen [] (split text) o c ->
    returns maxLen text (o ++ last_flush c).

(** ** Vocabulary of the properties *)

(** The paragraphs, each with a separator in front. *)
Definition lead (l : list str) : str :=
  List.concat (map (fun p => sep ++ p) l).

(** The first chunk of a sequence does not continue a paragraph. *)
Definition first_mark_ok (l : list mchunk) : Prop :=
  match l with
  | (HardSlice, _) :: _ => False
  | _ => True
  end.

(** How many times [p] occurs in a list of strings. *)
Definition str_eq_dec : forall a b : str, {a = b} + {a <> b} :=
  list_eq_dec ascii_dec.

Definition occ (p : str) (l : list str) : nat := count_occ str_eq_dec l p.

Definition is_it (p c : str) : nat := if str_eq_dec c p then 1%nat else 0%nat.

(** The string without its line feeds. *)
Definition without_nl (s : str) : str := filter (fun c => negb (is_nl c)) s.

(** [x] occurs in [s] as a run of consecutive characters. *)
Definition substring (x s : str) : Prop := exists a b, s = a ++ x ++ b.

(** The calls that deliver the chunks: [editReply] of the first one, or
    of the empty string when there is none, and [followUp] of the
    others. *)
Definition planned (chunks : list str) : list call :=
  let (first, rest) := shift chunks in
  EditReply (or_empty first) :: map FollowUp rest.

(** The text a call carries, for the calls that carry a string of the
    model; the error notices are fixed texts of the source. *)
Definition text_of (c : call) : option str :=
  match c with
  | EditReply s => Some s
  | FollowUp s => Some s
  | _ => None
  end.

Definition texts (calls : list call) : list str :=
  flat_map (fun c => match text_of c with Some s => [s] | None => [] end) calls.

Definition is_notice (c : call) : Prop :=
  match c with
  | Reply _ => True
  | EditReplyNotice _ => True
  | _ => False
  end.

(** A platform that accepts every call. *)
Definition accepts_all (pf : platform) : Prop :=
  forall h c, resolves pf h c = true.

(** The paragraphs, each with a separator behind. *)
Definition trail (l : list str) : str :=
  List.concat (map (fun p => p ++ sep) l).

(** [R] holds of every two adjacent elements of the list. *)
Fixpoint neighbours (R : str -> str -> Prop) (l : list str) : Prop :=
  match l with
  | [] => True
  | a :: t =>
      match t with
      | [] => True
      | b :: _ => R a b /\ neighbours R t
      end
  end.

(** ** Examples *)

Example ex_fits :
  splitMessage 0 (lit "Para1" ++ sep ++ lit "Para2") default_maxLen
  = Some [lit "Para1" ++ sep ++ lit "Para2"].
Proof. reflexivity. Qed.

Example ex_two_paragraphs :
  splitMessage 0 (lit "abc" ++ sep ++ lit "de") 4 = Some [lit "abc"; lit "de"].
Proof. reflexivity. Qed.

Example ex_force_slice :
  splitMessage 8 (lit "abcdefg") 3 = Some [lit "abc"; lit "def"; lit "g"].
Proof. reflexivity. Qed.

Example ex_overlong_kept :
  splitMessage 0 (lit "a" ++ sep ++ lit "bbbb") 3 = Some [lit "a"; lit "bbbb"].
Proof. reflexivity. Qed.

Example ex_blank_paragraphs_dropped :
  splitMessage 0 (lit "abc" ++ sep ++ sep ++ lit "def") 3 = Some [lit "abc"; lit "def"].
Proof. reflexivity. Qed.

Example ex_on_interaction_rejected_follow_up :
  on_interaction 4501
    (mkPlatform true (lit "ask") (Some (repeat "a"%char 4500))
       (fun h c => match c with FollowUp _ => false | Reply _ => false | _ => true end)
       (fun _ => false))
  = Some ([DeferReply; EditReply (repeat "a"%char 2000);
           FollowUp (repeat "a"%char 2000);
           Reply ErrorWithFile; Reply ErrorPlain], Rejected).
Proof. vm_compute. reflexivity. Qed.

Example ex_marked :
  splitMessage_marked 11 (lit "abcdef" ++ sep ++ lit "gh") 4
  = Some [(ParagraphBreak, lit "abcd"); (HardSlice, lit "ef"); (ParagraphBreak, lit "gh")].
Proof. reflexivity. Qed.

(** ** Facts about the string primitives *)

Section StringFacts.

Lemma len_nil : len [] = 0.
Proof. reflexivity. Qed.

Lemma len_cons (c : ascii) (s : str) : len (c :: s) = 1 + len s.
Proof. unfold len. cbn [List.length]. lia. Qed.

Lemma len_app (s t : str) : len (s ++ t) = len s + len t.
Proof. unfold len. rewrite length_app. lia. Qed.

Lemma len_sep : len sep = 2.
Proof. reflexivity. Qed.

Lemma len_nonneg (s : str) : 0 <= len s.
Proof. unfold len. lia. Qed.

Lemma len_zero (s : str) : len s = 0 -> s = [].
Proof. destruct s; [reflexivity | rewrite len_cons; pose proof (len_nonneg s); lia]. Qed.

Lemma len_pos (s : str) : s <> [] -> 0 < len s.
Proof.
  intros Hs. pose proof (len_nonneg s) as Hn.
  destruct (Z.eq_dec (len s) 0) as [E | E]; [apply len_zero in E; contradiction | lia].
Qed.

Lemma truthy_true (s : str) : truthy s = true <-> s <> [].
Proof. destruct s; cbn; split; congruence. Qed.

Lemma truthy_false (s : str) : truthy s = false <-> s = [].
Proof. destruct s; cbn; split; congruence. Qed.

Lemma is_nl_true (c : ascii) : is_nl c = true <-> c = nl.
Proof. unfold is_nl. apply Ascii.eqb_eq. Qed.

(** *** slice *)

Lemma rel_index_nonneg (n k : Z) : 0 <= k -> rel_index n k = Z.min k n.
Proof. intros Hk. unfold rel_index. destruct (Z.ltb_spec k 0); [lia | reflexivity]. Qed.

Lemma slice_nonneg (s : str) (a b : Z) :
  0 <= a -> 0 <= b ->
  slice s a b =
  firstn (Z.to_nat (Z.min b (len s) - Z.min a (len s)))
         (skipn (Z.to_nat (Z.min a (len s))) s).
Proof. intros Ha Hb. unfold slice. now rewrite !rel_index_nonneg. Qed.

Lemma len_slice (s : str) (a b : Z) :
  0 <= a <= b -> len (slice s a b) = Z.min b (len s) - Z.min a (len s).
Proof.
  intros Hab. rewrite slice_nonneg by lia.
  unfold len. rewrite length_firstn, length_skipn. lia.
Qed.

Lemma firstn_plus {A : Type} (n d : nat) (l : list A) :
  firstn n l ++ firstn d (skipn n l) = firstn (n + d) l.
Proof.
  revert l. induction n as [| n IH]; intros l; [reflexivity |].
  destruct l as [| x l]; cbn; [now rewrite firstn_nil | now rewrite IH].
Qed.

(** Consecutive slices tile a prefix of the string. *)
Lemma firstn_slice (s : str) (a b : Z) :
  0 <= a <= b ->
  firstn (Z.to_nat a) s ++ slice s a b = firstn (Z.to_nat b) s.
Proof.
  intros Hab. rewrite slice_nonneg by lia.
  destruct (Z.le_gt_cases a (len s)) as [Ha | Ha].
  - rewrite (Z.min_l a) by lia. rewrite firstn_plus.
    destruct (Z.le_gt_cases b (len s)) as [Hb | Hb].
    + rewrite Z.min_l by lia. f_equal. lia.
    + rewrite Z.min_r by lia.
      rewrite !firstn_all2; [reflexivity | unfold len in *; lia | unfold len in *; lia].
  - rewrite !Z.min_r by lia. rewrite Z.sub_diag. cbn [Z.to_nat firstn].
    rewrite app_nil_r.
    rewrite !firstn_all2; [reflexivity | unfold len in *; lia | unfold len in *; lia].
Qed.

(** *** split, join and includes *)

Lemma str_ind2 (P : str -> Prop) :
  P [] ->
  (forall c, P [c]) ->
  (forall c d r, P r -> P (d :: r) -> P (c :: d :: r)) ->
  forall s, P s.
Proof.
  intros H0 H1 H2 s.
  enough (P s /\ forall c, P (c :: s)) as [H _] by exact H.
  induction s as [| d r [IHr IHdr]]; split; auto.
Qed.

Lemma split_cons2 (c d : ascii) (r : str) :
  split (c :: d :: r) =
  if is_nl c && is_nl d then [] :: split r else cons_head c (split (d :: r)).
Proof. reflexivity. Qed.

Lemma includes_sep_cons2 (c d : ascii) (r : str) :
  includes_sep (c :: d :: r) = (is_nl c && is_nl d) || includes_sep (d :: r).
Proof. reflexivity. Qed.

Lemma split_not_nil (s : str) : split s <> [].
Proof.
  destruct s as [| c [| d r]]; try discriminate.
  rewrite split_cons2.
  destruct (is_nl c && is_nl d); [discriminate |].
  destruct (split (d :: r)); discriminate.
Qed.

Lemma join_cons (p : str) (ps : list str) :
  ps <> [] -> join (p :: ps) = p ++ sep ++ join ps.
Proof. destruct ps; [congruence | reflexivity]. Qed.

Lemma join_cons_head (c : ascii) (l : list str) :
  l <> [] -> join (cons_head c l) = c :: join l.
Proof. destruct l as [| p [| q l]]; [congruence | reflexivity | reflexivity]. Qed.

(** Joining the paragraphs gives the text back: [split] loses nothing. *)
Lemma join_split (s : str) : join (split s) = s.
Proof.
  induction s as [| c | c d r IHr IHdr] using str_ind2; try reflexivity.
  rewrite split_cons2. destruct (is_nl c && is_nl d) eqn:E.
  - apply andb_true_iff in E as [Ec Ed].
    apply is_nl_true in Ec, Ed. subst c d.
    rewrite join_cons by apply split_not_nil. now rewrite IHr.
  - rewrite join_cons_head by apply split_not_nil. now rewrite IHdr.
Qed.

Lemma split_no_sep (s : str) : includes_sep s = false -> split s = [s].
Proof.
  induction s as [| c | c d r IHr IHdr] using str_ind2; try reflexivity.
  rewrite split_cons2, includes_sep_cons2. intros H.
  apply orb_false_iff in H as [H1 H2]. rewrite H1.
  now rewrite (IHdr H2).
Qed.

(** [includes_sep] finds an occurrence exactly when there is one. *)
Lemma includes_sep_spec (s : str) :
  includes_sep s = true <-> exists a b, s = a ++ sep ++ b.
Proof.
  induction s as [| c | c d r IHr IHdr] using str_ind2.
  - split; [discriminate | intros (a & b & H); destruct a; discriminate].
  - split; [discriminate |].
    intros (a & b & H). destruct a as [| x [| y a]]; discriminate.
  - rewrite includes_sep_cons2, orb_true_iff, andb_true_iff, !is_nl_true, IHdr.
    split.
    + intros [[-> ->] | (a & b & H)].
      * now exists [], r.
      * exists (c :: a), b. now rewrite H.
    + intros (a & b & H). destruct a as [| x a].
      * cbn in H. injection H as -> -> _. now left.
      * cbn in H. injection H as _ H. right. now exists a, b.
Qed.

Lemma len_join_In (p : str) (l : list str) :
  In p l -> l = [p] \/ len p + 2 <= len (join l).
Proof.
  induction l as [| q l IH]; [contradiction |].
  destruct l as [| q' l].
  - intros [-> | []]. now left.
  - intros Hin. right. rewrite join_cons by discriminate.
    rewrite !len_app, len_sep.
    pose proof (len_nonneg q) as Hq.
    pose proof (len_nonneg (join (q' :: l))) as Hj.
    destruct Hin as [-> | Hin]; [lia |].
    destruct (IH Hin) as [E | Hle]; [| lia].
    injection E as -> ->. cbn [join]. lia.
Qed.

(** A paragraph is the whole text or at least a separator shorter. *)
Lemma paragraph_len (p s : str) :
  In p (split s) -> split s = [p] /\ p = s \/ len p + 2 <= len s.
Proof.
  intros Hin. destruct (len_join_In _ _ Hin) as [E | Hle].
  - left. split; [exact E |]. rewrite <- (join_split s), E. reflexivity.
  - right. now rewrite join_split in Hle.
Qed.

Lemma paragraph_length_le (p s : str) :
  In p (split s) -> (List.length p <= List.length s)%nat.
Proof.
  intros Hin. destruct (paragraph_len _ _ Hin) as [[_ ->] | H]; [lia |].
  unfold len in H. lia.
Qed.

End StringFacts.

(** ** The annotation is ghost: erasing it gives the chunker back *)

Section Erasure.

Lemma force_slice_erase (p : str) (maxLen : Z) (fuel : nat) :
  forall i out,
    force_slice fuel p maxLen i (map snd out)
    = option_map (map snd) (force_slice_marked fuel p maxLen i out).
Proof.
  induction fuel as [| fuel IH]; intros i out; [reflexivity |].
  cbn [force_slice force_slice_marked].
  destruct (i <? len p); [| reflexivity].
  rewrite <- IH. now rewrite map_app.
Qed.

Lemma body_erase (fuel : nat) (maxLen : Z) (st : mstate) (p : str) :
  body fuel maxLen (erase st) p
  = option_map erase (body_marked fuel maxLen st p).
Proof.
  unfold body, body_marked. destruct st as [ps c]. cbn [erase chunk parts mparts mchunk_buf].
  destruct (maxLen <? len (c ++ (if truthy c then sep ++ p else p))); [| reflexivity].
  destruct (truthy c).
  - cbn. unfold erase. cbn. now rewrite map_app.
  - rewrite force_slice_erase.
    destruct (force_slice_marked fuel p maxLen 0 ps); reflexivity.
Qed.

Lemma for_of_erase (fuel : nat) (maxLen : Z) (ps : list str) :
  forall st,
    for_of fuel maxLen ps (erase st)
    = option_map erase (for_of_marked fuel maxLen ps st).
Proof.
  induction ps as [| p ps IH]; intros st; [reflexivity |].
  cbn [for_of for_of_marked]. rewrite body_erase.
  destruct (body_marked fuel maxLen st p) as [st' |]; [apply IH | reflexivity].
Qed.

Lemma splitMessage_erase (fuel : nat) (text : str) (maxLen : Z) :
  splitMessage fuel text maxLen
  = option_map (map snd) (splitMessage_marked fuel text maxLen).
Proof.
  unfold splitMessage, splitMessage_marked.
  destruct (negb (truthy text)); [reflexivity |].
  destruct (len text <=? maxLen); [reflexivity |].
  change (mkState [] []) with (erase (mkMState [] [])).
  rewrite for_of_erase.
  destruct (for_of_marked fuel maxLen (split text) (mkMState [] [])) as [[ps c] |];
    [| reflexivity].
  cbn. unfold last_flush.
  destruct (truthy c); rewrite map_app; cbn; [reflexivity | now rewrite app_nil_r].
Qed.

End Erasure.

(** ** The chunker runs the transition system *)

Section Refinement.

Variable maxLen : Z.
Hypothesis maxLen_pos : 1 <= maxLen.

Lemma mpieces_S (p : str) (k : nat) :
  mpieces p maxLen (S k)
  = mpieces p maxLen k
    ++ [(slice_mark (Z.of_nat k * maxLen),
         slice p (Z.of_nat k * maxLen) (Z.of_nat k * maxLen + maxLen))].
Proof. unfold mpieces. now rewrite seq_S, map_app. Qed.

(** The force-slice loop ends, having pushed the [n] slices that cover
    the paragraph. *)
Lemma force_slice_marked_spec (p : str) (fuel : nat) :
  forall (k : nat) (out : list mchunk),
    (Z.to_nat (len p - Z.of_nat k * maxLen) < fuel)%nat ->
    (Z.of_nat k - 1) * maxLen < len p ->
    exists n,
      force_slice_marked fuel p maxLen (Z.of_nat k * maxLen)
        (out ++ mpieces p maxLen k)
      = Some (out ++ mpieces p maxLen n)
      /\ (Z.of_nat n - 1) * maxLen < len p <= Z.of_nat n * maxLen.
Proof.
  induction fuel as [| fuel IH]; intros k out Hfuel Hk; [lia |].
  cbn [force_slice_marked].
  destruct (Z.ltb_spec (Z.of_nat k * maxLen) (len p)) as [Hlt | Hge].
  - rewrite <- app_assoc, <- mpieces_S.
    replace (Z.of_nat k * maxLen + maxLen) with (Z.of_nat (S k) * maxLen) by lia.
    apply IH; lia.
  - exists k. split; [reflexivity | lia].
Qed.

Lemma body_marked_step (fuel : nat) (st : mstate) (p : str) :
  (List.length p < fuel)%nat ->
  exists o c',
    body_marked fuel maxLen st p = Some (mkMState (mparts st ++ o) c')
    /\ step maxLen (mchunk_buf st) p o c'.
Proof.
  intros Hfuel. destruct st as [ps c]. unfold body_marked.
  cbn [mparts mchunk_buf].
  destruct c as [| x c]; cbn [truthy].
  - rewrite app_nil_l.
    destruct (Z.ltb_spec maxLen (len p)) as [Hlt | Hle].
    + destruct (force_slice_marked_spec p fuel 0 ps) as (n & Hrun & Hn).
      * cbn [Z.of_nat]. unfold len in *. lia.
      * pose proof (len_nonneg p). lia.
      * cbn [Z.of_nat mpieces seq map] in Hrun.
        rewrite app_nil_r, Z.mul_0_l in Hrun. rewrite Hrun. cbn [bind].
        exists (mpieces p maxLen n), []. split; [reflexivity |].
        now apply step_slice.
    + exists [], p. rewrite app_nil_r. split; [reflexivity |].
      now apply step_start.
  - assert (Hlen : len ((x :: c) ++ sep ++ p) = len (x :: c) + 2 + len p).
    { rewrite !len_app, len_sep. lia. }
    destruct (Z.ltb_spec maxLen (len ((x :: c) ++ sep ++ p))) as [Hlt | Hle].
    + exists [(ParagraphBreak, x :: c)], p. split; [reflexivity |].
      apply step_flush; [discriminate | lia].
    + exists [], ((x :: c) ++ sep ++ p). rewrite app_nil_r. split; [reflexivity |].
      apply step_join; [discriminate | lia].
Qed.

Lemma for_of_marked_run (fuel : nat) (ps : list str) :
  Forall (fun p => (List.length p < fuel)%nat) ps ->
  forall st,
  exists o c',
    for_of_marked fuel maxLen ps st = Some (mkMState (mparts st ++ o) c')
    /\ run maxLen (mchunk_buf st) ps o c'.
Proof.
  induction 1 as [| p ps Hp _ IH]; intros st.
  - exists [], (mchunk_buf st). rewrite app_nil_r. destruct st.
    split; [reflexivity | constructor].
  - destruct (body_marked_step fuel st p Hp) as (o1 & c1 & Hbody & Hstep).
    destruct (IH (mkMState (mparts st ++ o1) c1)) as (o2 & c2 & Hfor & Hrun).
    cbn [mparts mchunk_buf] in Hfor, Hrun.
    exists (o1 ++ o2), c2. cbn [for_of_marked]. rewrite Hbody. cbn [bind].
    rewrite Hfor, app_assoc. split; [reflexivity |].
    econstructor; eassumption.
Qed.

(** Total correctness of the embedding: with more fuel than the text has
    characters the chunker returns, and what it returns is described by
    [returns]. *)
Lemma splitMessage_returns (fuel : nat) (text : str) :
  (List.length text < fuel)%nat ->
  exists marked,
    splitMessage_marked fuel text maxLen = Some marked
    /\ splitMessage fuel text maxLen = Some (map snd marked)
    /\ returns maxLen text marked.
Proof.
  intros Hfuel.
  enough (exists marked,
             splitMessage_marked fuel text maxLen = Some marked
             /\ returns maxLen text marked) as (marked & Hm & Hr).
  { exists marked. rewrite splitMessage_erase, Hm. now repeat split. }
  unfold splitMessage_marked.
  destruct text as [| x text]; cbn [truthy negb].
  - exists []. split; [reflexivity | now constructor].
  - destruct (Z.leb_spec (len (x :: text)) maxLen) as [Hle | Hgt].
    + eexists. split; [reflexivity |]. now constructor.
    + destruct (for_of_marked_run fuel (split (x :: text))) with (st := mkMState [] [])
        as (o & c & Hfor & Hrun).
      { apply Forall_forall. intros p Hin.
        apply paragraph_length_le in Hin. lia. }
      rewrite Hfor. cbn [bind mparts mchunk_buf app].
      eexists. split; [reflexivity |]. now constructor.
Qed.

End Refinement.

(** ** What the force-slice loop pushes *)

Section Pieces.

Variable maxLen : Z.
Hypothesis maxLen_pos : 1 <= maxLen.

Lemma snd_mpieces (p : str) (n : nat) :
  map snd (mpieces p maxLen n) = pieces p maxLen n.
Proof. unfold mpieces, pieces. rewrite map_map. reflexivity. Qed.

Lemma length_pieces (p : str) (n : nat) : List.length (pieces p maxLen n) = n.
Proof. unfold pieces. now rewrite length_map, length_seq. Qed.

Lemma pieces_S (p : str) (k : nat) :
  pieces p maxLen (S k)
  = pieces p maxLen k
    ++ [slice p (Z.of_nat k * maxLen) (Z.of_nat k * maxLen + maxLen)].
Proof. unfold pieces. now rewrite seq_S, map_app. Qed.

Lemma nth_pieces (p : str) (n k : nat) :
  (k < n)%nat ->
  nth k (pieces p maxLen n) []
  = slice p (Z.of_nat k * maxLen) (Z.of_nat k * maxLen + maxLen).
Proof.
  intros Hk. unfold pieces.
  rewrite (nth_indep _ [] (slice p (Z.of_nat 0 * maxLen) (Z.of_nat 0 * maxLen + maxLen)))
    by (now rewrite length_map, length_seq).
  rewrite (map_nth (fun k => slice p (Z.of_nat k * maxLen) (Z.of_nat k * maxLen + maxLen))).
  now rewrite seq_nth.
Qed.

(** The first [k] slices are the first [k * maxLen] characters. *)
Lemma concat_pieces (p : str) (k : nat) :
  List.concat (pieces p maxLen k) = firstn (Z.to_nat (Z.of_nat k * maxLen)) p.
Proof.
  induction k as [| k IH]; [reflexivity |].
  rewrite pieces_S, concat_app, IH. cbn [List.concat]. rewrite app_nil_r.
  rewrite firstn_slice by lia. f_equal. lia.
Qed.

Lemma concat_pieces_all (p : str) (n : nat) :
  len p <= Z.of_nat n * maxLen -> List.concat (pieces p maxLen n) = p.
Proof.
  intros Hn. rewrite concat_pieces. apply firstn_all2. unfold len in Hn. lia.
Qed.

(** Every slice but the last is [maxLen] long. *)
Lemma len_piece_full (p : str) (k : nat) :
  (Z.of_nat k + 1) * maxLen <= len p ->
  len (slice p (Z.of_nat k * maxLen) (Z.of_nat k * maxLen + maxLen)) = maxLen.
Proof. intros Hk. rewrite len_slice by lia. lia. Qed.

(** Every slice is non-empty and at most [maxLen] long. *)
Lemma len_piece (p : str) (k : nat) :
  Z.of_nat k * maxLen < len p ->
  0 < len (slice p (Z.of_nat k * maxLen) (Z.of_nat k * maxLen + maxLen)) <= maxLen.
Proof. intros Hk. rewrite len_slice by lia. lia. Qed.

Lemma Forall_pieces (p : str) (n : nat) :
  (Z.of_nat n - 1) * maxLen < len p ->
  Forall (fun c => 0 < len c <= maxLen) (pieces p maxLen n).
Proof.
  intros Hn. unfold pieces. apply Forall_map, Forall_forall.
  intros k Hk. apply in_seq in Hk. apply len_piece. nia.
Qed.

Lemma glue_app (l1 l2 : list mchunk) : glue (l1 ++ l2) = glue l1 ++ glue l2.
Proof.
  induction l1 as [| [[] c] l1 IH]; cbn [app glue]; [reflexivity | |];
    rewrite IH; now rewrite <- ?app_assoc.
Qed.

(** Gluing the slices of a paragraph gives the paragraph, with one
    separator in front. *)
Lemma glue_mpieces (p : str) (k : nat) :
  glue (mpieces p maxLen (S k))
  = sep ++ firstn (Z.to_nat (Z.of_nat (S k) * maxLen)) p.
Proof.
  induction k as [| k IH].
  - unfold mpieces. cbn [seq map glue Z.of_nat]. rewrite Z.mul_0_l, Z.mul_1_l.
    cbn [slice_mark Z.eqb glue]. rewrite app_nil_r.
    rewrite <- (firstn_slice p 0 maxLen) by lia.
    reflexivity.
  - rewrite mpieces_S, glue_app, IH.
    unfold slice_mark. destruct (Z.eqb_spec (Z.of_nat (S k) * maxLen) 0) as [E | _]; [lia |].
    cbn [glue]. rewrite app_nil_r, <- app_assoc. f_equal.
    rewrite firstn_slice by lia. f_equal. lia.
Qed.

Lemma glue_mpieces_all (p : str) (n : nat) :
  p <> [] -> len p <= Z.of_nat n * maxLen ->
  glue (mpieces p maxLen n) = sep ++ p.
Proof.
  intros Hp Hn. apply len_pos in Hp.
  destruct n as [| k]; [cbn in Hn; lia |].
  rewrite glue_mpieces. f_equal. apply firstn_all2. unfold len in Hn. lia.
Qed.

(** The loop of the source, without the annotation. *)
Lemma force_slice_spec (p : str) (fuel : nat) (out : list str) :
  (List.length p < fuel)%nat ->
  exists n,
    force_slice fuel p maxLen 0 out = Some (out ++ pieces p maxLen n)
    /\ (Z.of_nat n - 1) * maxLen < len p <= Z.of_nat n * maxLen.
Proof.
  intros Hfuel.
  destruct (force_slice_marked_spec maxLen maxLen_pos p fuel 0
              (map (pair ParagraphBreak) out)) as (n & Hrun & Hn).
  - cbn [Z.of_nat]. unfold len. lia.
  - pose proof (len_nonneg p). lia.
  - exists n. split; [| exact Hn].
    cbn [Z.of_nat mpieces seq map] in Hrun. rewrite app_nil_r, Z.mul_0_l in Hrun.
    assert (E : map snd (map (pair ParagraphBreak) out) = out).
    { rewrite map_map. cbn. apply map_id. }
    pose proof (force_slice_erase p maxLen fuel 0 (map (pair ParagraphBreak) out)) as Her.
    rewrite Hrun, E in Her. cbn [option_map] in Her.
    rewrite Her, map_app, snd_mpieces. do 2 f_equal. exact E.
Qed.

End Pieces.

(** Without progress the loop never ends: for [maxLen <= 0] the index
    does not move forward, whatever the fuel. *)
Lemma force_slice_stuck (p : str) (maxLen : Z) :
  maxLen <= 0 ->
  forall fuel i out, i < len p -> force_slice fuel p maxLen i out = None.
Proof.
  intros Hm. induction fuel as [| fuel IH]; intros i out Hi; [reflexivity |].
  cbn [force_slice]. destruct (Z.ltb_spec i (len p)); [| lia].
  apply IH. lia.
Qed.

Example ex_zero_diverges : forall fuel, splitMessage fuel (lit "ab") 0 = None.
Proof.
  intros fuel. unfold splitMessage. cbn -[force_slice].
  now rewrite force_slice_stuck.
Qed.

(** ** Invariants of a run *)

Section Invariants.

Variable maxLen : Z.

(** The loop invariant rule: [I done out c] relates the paragraphs
    consumed so far, the chunks pushed so far and the buffer. *)
Lemma run_invariant (Q : str -> Prop) (I : list str -> list mchunk -> str -> Prop) :
  (forall done out c p o c',
      Q p -> I done out c -> step maxLen c p o c' -> I (done ++ [p]) (out ++ o) c') ->
  forall c ps o c',
    run maxLen c ps o c' ->
    Forall Q ps ->
    forall done out, I done out c -> I (done ++ ps) (out ++ o) c'.
Proof.
  intros Hstep c ps o c' Hrun.
  induction Hrun as [c | c p o c1 ps o' c2 Hs _ IH]; intros HQ done out HI.
  - now rewrite !app_nil_r.
  - inversion HQ as [| ? ? Hp Hps]; subst.
    replace (done ++ p :: ps) with ((done ++ [p]) ++ ps) by now rewrite <- app_assoc.
    rewrite app_assoc. apply IH; [exact Hps |].
    eapply Hstep; eassumption.
Qed.

End Invariants.

(** ** The result does not depend on the fuel *)

Section Fuel.

Lemma force_slice_mono (p : str) (maxLen : Z) (fuel fuel' : nat) :
  (fuel <= fuel')%nat ->
  forall i out r,
    force_slice fuel p maxLen i out = Some r ->
    force_slice fuel' p maxLen i out = Some r.
Proof.
  revert fuel'. induction fuel as [| fuel IH]; intros fuel' Hle i out r H;
    [discriminate |].
  destruct fuel' as [| fuel']; [lia |].
  cbn [force_slice] in *. destruct (i <? len p); [| exact H].
  apply IH; [lia | exact H].
Qed.

Lemma body_mono (maxLen : Z) (fuel fuel' : nat) (st st' : state) (p : str) :
  (fuel <= fuel')%nat ->
  body fuel maxLen st p = Some st' -> body fuel' maxLen st p = Some st'.
Proof.
  intros Hle. unfold body.
  destruct (maxLen <? len (chunk st ++ (if truthy (chunk st) then sep ++ p else p)));
    [| trivial].
  destruct (truthy (chunk st)); [trivial |].
  destruct (force_slice fuel p maxLen 0 (parts st)) as [r |] eqn:E; [| discriminate].
  now rewrite (force_slice_mono _ _ _ _ Hle _ _ _ E).
Qed.

Lemma for_of_mono (maxLen : Z) (fuel fuel' : nat) (ps : list str) :
  (fuel <= fuel')%nat ->
  forall st st',
    for_of fuel maxLen ps st = Some st' -> for_of fuel' maxLen ps st = Some st'.
Proof.
  intros Hle. induction ps as [| p ps IH]; intros st st' H; [exact H |].
  cbn [for_of] in *.
  destruct (body fuel maxLen st p) as [st1 |] eqn:E; [| discriminate].
  rewrite (body_mono _ _ _ _ _ _ Hle E). cbn [bind] in *. now apply IH.
Qed.

Lemma splitMessage_mono (fuel fuel' : nat) (text : str) (maxLen : Z) (r : list str) :
  (fuel <= fuel')%nat ->
  splitMessage fuel text maxLen = Some r -> splitMessage fuel' text maxLen = Some r.
Proof.
  intros Hle. unfold splitMessage.
  destruct (negb (truthy text)); [trivial |].
  destruct (len text <=? maxLen); [trivial |].
  destruct (for_of fuel maxLen (split text) (mkState [] [])) as [st |] eqn:E;
    [| discriminate].
  now rewrite (for_of_mono _ _ _ _ Hle _ _ E).
Qed.

End Fuel.

(** ** The properties of the specification *)

(** The second line of the function: what fits is returned as it is. *)
Lemma splitMessage_fits (text : str) (maxLen : Z) (fuel : nat) :
  text <> [] ->
  len text <= maxLen ->
  splitMessage fuel text maxLen = Some [text].
Proof.
  intros Ht Hle. unfold splitMessage.
  apply truthy_true in Ht. rewrite Ht. cbn [negb].
  destruct (Z.leb_spec (len text) maxLen); [reflexivity | lia].
Qed.

(** Claim C4.  Termination.  For every text and every [maxLen >= 1] the chunker
    returns a sequence of chunks as soon as the fuel exceeds the length of
    the text; in particular the force-slice loop, which moves its index
    forward by [maxLen] at each turn, ends on every paragraph, after
    pushing the [n] slices that cover it.  No operation of the chunker
    can raise: running out of fuel is the only way not to return. *)
Theorem splitMessage_terminates (text : str) (maxLen : Z) (fuel : nat) :
  1 <= maxLen ->
  (List.length text < fuel)%nat ->
  (exists chunks, splitMessage fuel text maxLen = Some chunks)
  /\ (forall p out, (List.length p < fuel)%nat ->
        exists n, force_slice fuel p maxLen 0 out = Some (out ++ pieces p maxLen n)
                  /\ (Z.of_nat n - 1) * maxLen < len p <= Z.of_nat n * maxLen).
Proof.
  intros Hm Hfuel. split.
  - destruct (splitMessage_returns maxLen Hm fuel text Hfuel) as (marked & _ & H & _).
    eexists. exact H.
  - intros p out Hp. now apply force_slice_spec.
Qed.

Lemma splitMessage_terminates_witness :
  (exists chunks, splitMessage 8 (lit "abcdefg") 3 = Some chunks)
  /\ (forall p out, (List.length p < 8)%nat ->
        exists n, force_slice 8 p 3 0 out = Some (out ++ pieces p 3 n)
                  /\ (Z.of_nat n - 1) * 3 < len p <= Z.of_nat n * 3).
Proof.
  apply (splitMessage_terminates (lit "abcdefg") 3 8); [lia | cbn; lia].
Defined.

(** Claim C5.  A non-empty text that fits in one message is returned whole, as
    the only chunk. *)
Theorem splitMessage_short (text : str) (maxLen : Z) (fuel : nat) :
  text <> [] ->
  len text <= maxLen ->
  splitMessage fuel text maxLen = Some [text].
Proof. apply splitMessage_fits. Qed.

Lemma splitMessage_short_witness :
  splitMessage 0 (lit "Para1" ++ sep ++ lit "Para2") 2000
  = Some [lit "Para1" ++ sep ++ lit "Para2"].
Proof.
  apply (splitMessage_short (lit "Para1" ++ sep ++ lit "Para2") 2000 0);
    [discriminate | cbn; lia].
Defined.

(** Claim C9.  No chunk is empty: for every text and every [maxLen >= 1] the
    chunker returns, and every chunk it returns is a non-empty string. *)
Theorem splitMessage_chunks_nonempty (text : str) (maxLen : Z) (fuel : nat) :
  1 <= maxLen ->
  (List.length text < fuel)%nat ->
  exists chunks,
    splitMessage fuel text maxLen = Some chunks
    /\ Forall (fun c => c <> []) chunks.
Proof.
  intros Hm Hfuel.
  destruct (splitMessage_returns maxLen Hm fuel text Hfuel) as (marked & _ & H & Hr).
  exists (map snd marked). split; [exact H |].
  apply Forall_map.
  destruct Hr as [Ht | Ht Hle | o c Hgt Hrun].
  - constructor.
  - now repeat constructor.
  - apply Forall_app. split.
    + apply (run_invariant maxLen (fun _ => True)
               (fun _ out _ => Forall (fun m : mchunk => snd m <> []) out))
        with (done := []) (out := []) in Hrun.
      * exact Hrun.
      * intros done out c0 p o0 c' _ HI Hs. apply Forall_app. split; [exact HI |].
        destruct Hs as [c1 p1 Hc _ | p1 n Hp Hn | c1 p1 _ _ | p1 _];
          try constructor; try exact Hc; try constructor.
        apply (proj1 (Forall_map snd (fun a : str => a <> []) (mpieces p1 maxLen n))).
        rewrite snd_mpieces.
        eapply Forall_impl; [| apply (Forall_pieces maxLen Hm p1 n); lia].
        cbn. intros a Ha E. subst a. cbn in Ha. lia.
      * apply Forall_forall. trivial.
      * constructor.
    + unfold last_flush. destruct c; repeat constructor. discriminate.
Qed.

Lemma splitMessage_chunks_nonempty_witness :
  exists chunks,
    splitMessage 8 (lit "abcdefg") 3 = Some chunks
    /\ Forall (fun c => c <> []) chunks.
Proof.
  apply (splitMessage_chunks_nonempty (lit "abcdefg") 3 8); [lia | cbn; lia].
Defined.

(** A text without blank line that does not fit is one over-long
    paragraph: the chunks are its consecutive slices. *)
Lemma splitMessage_single_paragraph (text : str) (maxLen : Z) (fuel : nat) :
  1 <= maxLen ->
  includes_sep text = false ->
  maxLen < len text ->
  (List.length text < fuel)%nat ->
  exists n,
    splitMessage fuel text maxLen = Some (pieces text maxLen n)
    /\ (Z.of_nat n - 1) * maxLen < len text <= Z.of_nat n * maxLen.
Proof.
  intros Hm Hsep Hgt Hfuel.
  destruct (force_slice_spec maxLen Hm text fuel [] Hfuel) as (n & Hrun & Hn).
  exists n. split; [| exact Hn].
  unfold splitMessage. rewrite (split_no_sep text Hsep).
  destruct text as [| x text]; [cbn in Hgt; lia |].
  cbn [truthy negb].
  destruct (Z.leb_spec (len (x :: text)) maxLen) as [Hle | _]; [lia |].
  cbn [for_of]. unfold body. cbn [chunk parts truthy app].
  destruct (Z.ltb_spec maxLen (len (x :: text))) as [_ | Hle]; [| lia].
  rewrite Hrun. reflexivity.
Qed.

(** Claim C6.  Force-slicing.  A text without ['\n\n'] of length [3 * maxLen]
    comes back as exactly three chunks of [maxLen] characters each; more
    generally an over-long single paragraph comes back as its consecutive
    slices of width [maxLen], all of them [maxLen] long except the last,
    which holds the remainder (between 1 and [maxLen] characters); and
    2500 times ['A'] with [maxLen = 2000] gives 2000 and 500 times
    ['A']. *)
Theorem splitMessage_force_slices (text : str) (maxLen : Z) (fuel : nat) :
  1 <= maxLen ->
  includes_sep text = false ->
  (List.length text < fuel)%nat ->
  (len text = 3 * maxLen ->
     exists a b c,
       splitMessage fuel text maxLen = Some [a; b; c]
       /\ len a = maxLen /\ len b = maxLen /\ len c = maxLen
       /\ a ++ b ++ c = text)
  /\ (maxLen < len text ->
      exists n,
        splitMessage fuel text maxLen = Some (pieces text maxLen n)
        /\ (Z.of_nat n - 1) * maxLen < len text <= Z.of_nat n * maxLen
        /\ List.concat (pieces text maxLen n) = text
        /\ (forall k, (k + 1 < n)%nat ->
              len (nth k (pieces text maxLen n) []) = maxLen)
        /\ 0 < len (nth (n - 1) (pieces text maxLen n) []) <= maxLen)
  /\ splitMessage 2501 (repeat "A"%char 2500) 2000
     = Some [repeat "A"%char 2000; repeat "A"%char 500].
Proof.
  intros Hm Hsep Hfuel. split; [| split].
  - intros Hlen.
    destruct (splitMessage_single_paragraph text maxLen fuel Hm Hsep) as (n & Hrun & Hn);
      [lia | exact Hfuel |].
    assert (n = 3%nat) by nia. subst n.
    pose proof (concat_pieces_all maxLen Hm text 3 ltac:(lia)) as Hcat.
    unfold pieces in Hrun, Hcat. cbn [seq map List.concat] in Hrun, Hcat.
    rewrite app_nil_r in Hcat.
    do 3 eexists. split; [exact Hrun |].
    repeat split; try exact Hcat.
    + apply (len_piece_full maxLen Hm text 0). lia.
    + apply (len_piece_full maxLen Hm text 1). lia.
    + apply (len_piece_full maxLen Hm text 2). lia.
  - intros Hgt.
    destruct (splitMessage_single_paragraph text maxLen fuel Hm Hsep Hgt Hfuel)
      as (n & Hrun & Hn).
    exists n. split; [exact Hrun |]. split; [exact Hn |].
    split; [apply (concat_pieces_all maxLen Hm); lia |].
    split.
    + intros k Hk. rewrite nth_pieces by lia.
      apply (len_piece_full maxLen Hm). nia.
    + assert (0 < n)%nat by nia.
      rewrite nth_pieces by lia. apply (len_piece maxLen Hm).
      replace (Z.of_nat (n - 1)) with (Z.of_nat n - 1) by lia. lia.
  - vm_compute. reflexivity.
Qed.

Lemma splitMessage_force_slices_witness :
  (len (lit "abcdef") = 3 * 2 ->
     exists a b c,
       splitMessage 7 (lit "abcdef") 2 = Some [a; b; c]
       /\ len a = 2 /\ len b = 2 /\ len c = 2
       /\ a ++ b ++ c = lit "abcdef")
  /\ (2 < len (lit "abcdef") ->
      exists n,
        splitMessage 7 (lit "abcdef") 2 = Some (pieces (lit "abcdef") 2 n)
        /\ (Z.of_nat n - 1) * 2 < len (lit "abcdef") <= Z.of_nat n * 2
        /\ List.concat (pieces (lit "abcdef") 2 n) = lit "abcdef"
        /\ (forall k, (k + 1 < n)%nat ->
              len (nth k (pieces (lit "abcdef") 2 n) []) = 2)
        /\ 0 < len (nth (n - 1) (pieces (lit "abcdef") 2 n) []) <= 2)
  /\ splitMessage 2501 (repeat "A"%char 2500) 2000
     = Some [repeat "A"%char 2000; repeat "A"%char 500].
Proof.
  apply (splitMessage_force_slices (lit "abcdef") 2 7);
    [lia | reflexivity | cbn; lia].
Defined.

(** Claim C10.  On a text without ['\n\n'] the chunker is a lossless partition:
    for every [maxLen >= 1] it returns, and the plain concatenation of the
    chunks is the text. *)
Theorem splitMessage_partition (text : str) (maxLen : Z) (fuel : nat) :
  1 <= maxLen ->
  includes_sep text = false ->
  (List.length text < fuel)%nat ->
  exists chunks,
    splitMessage fuel text maxLen = Some chunks
    /\ List.concat chunks = text.
Proof.
  intros Hm Hsep Hfuel.
  destruct (Z.le_gt_cases (len text) maxLen) as [Hle | Hgt].
  - destruct text as [| x text].
    + exists []. split; reflexivity.
    + exists [x :: text]. split.
      * apply splitMessage_fits; [discriminate | exact Hle].
      * cbn [List.concat]. now rewrite app_nil_r.
  - destruct (splitMessage_single_paragraph text maxLen fuel Hm Hsep Hgt Hfuel)
      as (n & Hrun & Hn).
    exists (pieces text maxLen n). split; [exact Hrun |].
    apply (concat_pieces_all maxLen Hm). lia.
Qed.

Lemma splitMessage_partition_witness :
  exists chunks,
    splitMessage 8 (lit "abcdefg") 3 = Some chunks
    /\ List.concat chunks = lit "abcdefg".
Proof.
  apply (splitMessage_partition (lit "abcdefg") 3 8);
    [lia | reflexivity | cbn; lia].
Defined.

(** *** Counting the occurrences of a paragraph *)

Lemma occ_app (p : str) (l1 l2 : list str) :
  occ p (l1 ++ l2) = (occ p l1 + occ p l2)%nat.
Proof. apply count_occ_app. Qed.

Lemma occ_single (p c : str) : occ p [c] = is_it p c.
Proof. unfold occ, is_it. cbn. destruct (str_eq_dec c p); reflexivity. Qed.

Lemma is_it_other (p c : str) : len c <> len p -> is_it p c = 0%nat.
Proof.
  intros H. unfold is_it. destruct (str_eq_dec c p) as [-> | _]; [congruence | reflexivity].
Qed.

Lemma occ_In (p : str) (l : list str) : (0 < occ p l)%nat <-> In p l.
Proof. unfold occ. symmetry. apply count_occ_In. Qed.

(** Every paragraph of length [maxLen] met so far has been pushed as a
    chunk of its own or is the buffer. *)
Lemma run_keeps_full_paragraphs (maxLen : Z) (q : str) :
  1 <= maxLen -> len q = maxLen ->
  forall ps o c,
    run maxLen [] ps o c ->
    (occ q ps <= occ q (map snd o) + is_it q c)%nat.
Proof.
  intros Hm Hq ps o c Hrun.
  apply (run_invariant maxLen (fun _ => True)
           (fun done out c => (occ q done <= occ q (map snd out) + is_it q c)%nat))
    with (done := []) (out := []) in Hrun.
  - exact Hrun.
  - intros done out c0 p o0 c' _ HI Hs.
    rewrite map_app, !occ_app, occ_single. unfold mchunk in *.
    destruct Hs as [c1 p1 Hc Hover | p1 n Hp Hn | c1 p1 Hc Hfit | p1 Hfit];
      cbn [map snd].
    + rewrite occ_single. lia.
    + rewrite (is_it_other q p1) by lia.
      rewrite (is_it_other q []) in * by (rewrite len_nil; lia). lia.
    + pose proof (len_nonneg p1). pose proof (len_pos c1 Hc).
      assert (Hlen : len (c1 ++ sep ++ p1) = len c1 + 2 + len p1).
      { rewrite !len_app, len_sep. lia. }
      rewrite (is_it_other q p1) by lia.
      rewrite (is_it_other q c1) in HI by lia.
      change (occ q []) with 0%nat. lia.
    + rewrite (is_it_other q []) in HI by (rewrite len_nil; lia).
      change (occ q []) with 0%nat. lia.
  - apply Forall_forall. trivial.
  - cbn. lia.
Qed.

(** Claim C7.  A paragraph of exactly [maxLen] characters is never cut: for
    every text, every [maxLen >= 1] and every paragraph [p] of the text
    with [len p = maxLen], the chunker returns and [p] is one of the
    chunks, whole; and this holds of every occurrence, as [p] is a chunk
    at least as many times as it is a paragraph. *)
Theorem paragraph_of_maxLen_intact (text : str) (maxLen : Z) (fuel : nat) (p : str) :
  1 <= maxLen ->
  (List.length text < fuel)%nat ->
  In p (split text) ->
  len p = maxLen ->
  exists chunks,
    splitMessage fuel text maxLen = Some chunks
    /\ In p chunks
    /\ (occ p (split text) <= occ p chunks)%nat.
Proof.
  intros Hm Hfuel Hin Hp.
  destruct (splitMessage_returns maxLen Hm fuel text Hfuel) as (marked & _ & H & Hr).
  exists (map snd marked). split; [exact H |].
  enough (Hocc : (occ p (split text) <= occ p (map snd marked))%nat).
  { split; [| exact Hocc]. apply occ_In. apply occ_In in Hin. clear - Hin Hocc. lia. }
  destruct Hr as [Ht | Ht Hle | o c Hgt Hrun].
  - subst text. cbn in Hin. destruct Hin as [<- | []]. cbn in Hp. lia.
  - destruct (paragraph_len p text Hin) as [[E ->] | Hlt]; [| lia].
    rewrite E. cbn [map snd]. apply Nat.le_refl.
  - pose proof (run_keeps_full_paragraphs maxLen p Hm Hp _ _ _ Hrun) as Hinv.
    rewrite map_app, occ_app. unfold last_flush.
    destruct c as [| x c]; cbn [truthy map snd].
    + rewrite (is_it_other p []) in Hinv by (rewrite len_nil; lia).
      unfold mchunk in *. lia.
    + rewrite occ_single. unfold mchunk in *. lia.
Qed.

Lemma paragraph_of_maxLen_intact_witness :
  exists chunks,
    splitMessage 11 (lit "ab" ++ sep ++ lit "cde" ++ sep ++ lit "f") 3 = Some chunks
    /\ In (lit "cde") chunks
    /\ (occ (lit "cde") (split (lit "ab" ++ sep ++ lit "cde" ++ sep ++ lit "f"))
        <= occ (lit "cde") chunks)%nat.
Proof.
  apply (paragraph_of_maxLen_intact
           (lit "ab" ++ sep ++ lit "cde" ++ sep ++ lit "f") 3 11 (lit "cde"));
    [lia | cbn; lia | cbn; auto | reflexivity].
Defined.

(** Claim C3, as the specification states it, fails: a text made of separators
    only that does not fit in [maxLen] gives no chunk at all.  Here the
    text is ['\n\n'] and [maxLen] is 1. *)
Lemma only_separators_no_chunk :
  exists chunks,
    splitMessage 3 sep 1 = Some chunks
    /\ ~ (chunks <> [] <-> sep <> []).
Proof.
  exists []. split; [reflexivity |].
  intros [_ H]. apply H; [discriminate | reflexivity].
Qed.

(** Something has been pushed, or the buffer holds something, exactly when
    one of the paragraphs met so far is not empty. *)
Lemma run_nonempty_iff (maxLen : Z) :
  1 <= maxLen ->
  forall ps o c,
    run maxLen [] ps o c ->
    (o <> [] \/ c <> [] <-> Exists (fun p => p <> []) ps).
Proof.
  intros Hm ps o c Hrun.
  apply (run_invariant maxLen (fun _ => True)
           (fun done out c => out <> [] \/ c <> [] <-> Exists (fun p => p <> []) done))
    with (done := []) (out := []) in Hrun.
  - exact Hrun.
  - intros done out c0 p o0 c' _ HI Hs.
    rewrite Exists_app, <- HI, Exists_cons, Exists_nil.
    destruct Hs as [c1 p1 Hc Hover | p1 n Hp Hn | c1 p1 Hc Hfit | p1 Hfit].
    + split; [intros _; left; now right |].
      intros _. left. destruct out; discriminate.
    + assert (Hp1 : p1 <> []) by (intros ->; cbn in Hp; lia).
      assert (Hn0 : mpieces p1 maxLen n <> []).
      { destruct n as [| n]; [cbn in Hn; lia |]. discriminate. }
      split; [intros _; right; now left |].
      intros _. left. intros E. apply app_eq_nil in E as [_ E]. contradiction.
    + split; [intros _; left; now right |].
      intros _. right. destruct c1; [contradiction | discriminate].
    + rewrite app_nil_r. tauto.
  - apply Forall_forall. trivial.
  - split; [intros [H | H]; contradiction | intros H; inversion H].
Qed.

(** Claim C3, amended.  For every text and every [maxLen >= 1] the chunker
    returns, and the sequence is non-empty exactly when the text is
    non-empty and either fits in [maxLen] or has a non-empty paragraph;
    in particular the empty text gives the empty sequence, and not a
    sequence holding one empty string. *)
Theorem splitMessage_nonempty_iff (text : str) (maxLen : Z) (fuel : nat) :
  1 <= maxLen ->
  (List.length text < fuel)%nat ->
  exists chunks,
    splitMessage fuel text maxLen = Some chunks
    /\ (chunks <> [] <->
        text <> [] /\ (len text <= maxLen \/ Exists (fun p => p <> []) (split text)))
    /\ (text = [] -> chunks = []).
Proof.
  intros Hm Hfuel.
  destruct (splitMessage_returns maxLen Hm fuel text Hfuel) as (marked & _ & H & Hr).
  exists (map snd marked). split; [exact H |].
  destruct Hr as [Ht | Ht Hle | o c Hgt Hrun].
  - subst text. split; [| reflexivity].
    split; [intros E; now contradiction E | intros [E _]; now contradiction E].
  - split; [| intros E; contradiction].
    split; [intros _; split; [exact Ht | now left] | discriminate].
  - assert (Ht : text <> []) by (intros ->; cbn in Hgt; lia).
    split; [| intros E; contradiction].
    pose proof (run_nonempty_iff maxLen Hm _ _ _ Hrun) as Hinv.
    assert (Hne : map snd (o ++ last_flush c) <> [] <-> o <> [] \/ c <> []).
    { unfold last_flush. destruct o as [| m o], c as [| x c]; cbn;
        split; intros E; try discriminate; try tauto; try (left; discriminate);
        try (right; discriminate). }
    rewrite Hne, Hinv. split.
    + intros E. split; [exact Ht | now right].
    + intros [_ [E | E]]; [lia | exact E].
Qed.

Lemma splitMessage_nonempty_iff_witness :
  exists chunks,
    splitMessage 8 (lit "abcdefg") 3 = Some chunks
    /\ (chunks <> [] <->
        lit "abcdefg" <> []
        /\ (len (lit "abcdefg") <= 3
            \/ Exists (fun p => p <> []) (split (lit "abcdefg"))))
    /\ (lit "abcdefg" = [] -> chunks = []).
Proof.
  apply (splitMessage_nonempty_iff (lit "abcdefg") 3 8); [lia | cbn; lia].
Defined.

(** *** Putting the text back together *)

Lemma lead_app (l1 l2 : list str) : lead (l1 ++ l2) = lead l1 ++ lead l2.
Proof. unfold lead. now rewrite map_app, concat_app. Qed.

Lemma lead_join (l : list str) : l <> [] -> lead l = sep ++ join l.
Proof.
  induction l as [| p l IH]; [congruence |]. intros _.
  destruct l as [| q l].
  - unfold lead. cbn [map List.concat join]. now rewrite app_nil_r.
  - rewrite join_cons by discriminate. rewrite <- IH by discriminate.
    unfold lead. cbn [map List.concat]. now rewrite <- app_assoc.
Qed.

Lemma glue_last_flush (c : str) : c <> [] -> glue (last_flush c) = sep ++ c.
Proof.
  destruct c as [| x c]; [congruence |]. intros _.
  unfold last_flush. cbn [truthy glue]. now rewrite app_nil_r.
Qed.

Lemma first_mark_ok_app (l1 l2 : list mchunk) :
  first_mark_ok l1 -> first_mark_ok l2 -> first_mark_ok (l1 ++ l2).
Proof. destruct l1 as [| [[] x] l1]; cbn; trivial. Qed.

Lemma first_mark_ok_mpieces (p : str) (maxLen : Z) (n : nat) :
  first_mark_ok (mpieces p maxLen n).
Proof. destruct n as [| n]; cbn; trivial. Qed.

Lemma rejoin_of_glue (l : list mchunk) (t : str) :
  first_mark_ok l -> glue l = sep ++ t -> rejoin l = t.
Proof.
  destruct l as [| [[] x] l]; cbn [first_mark_ok glue rejoin].
  - discriminate.
  - intros _ H. now apply app_inv_head in H.
  - contradiction.
Qed.

(** When no paragraph is empty, the chunks pushed so far and the buffer,
    glued, are the paragraphs met so far. *)
Lemma run_glue (maxLen : Z) :
  1 <= maxLen ->
  forall ps o c,
    run maxLen [] ps o c ->
    Forall (fun p => p <> []) ps ->
    glue o ++ glue (last_flush c) = lead ps /\ first_mark_ok o.
Proof.
  intros Hm ps o c Hrun Hne.
  apply (run_invariant maxLen (fun p => p <> [])
           (fun done out c =>
              glue out ++ glue (last_flush c) = lead done /\ first_mark_ok out))
    with (done := []) (out := []) in Hrun.
  - exact Hrun.
  - intros done out c0 p o0 c' Hp [HI Hok] Hs.
    rewrite lead_app, <- HI, glue_app. unfold lead at 1. cbn [map List.concat].
    rewrite app_nil_r.
    destruct Hs as [c1 p1 Hc Hover | p1 n Hp1 Hn | c1 p1 Hc Hfit | p1 Hfit].
    + split; [| apply first_mark_ok_app; [exact Hok | exact I]].
      rewrite !glue_last_flush by assumption.
      cbn [glue]. now rewrite ?app_nil_r, <- ?app_assoc.
    + split; [| apply first_mark_ok_app; [exact Hok | apply first_mark_ok_mpieces]].
      rewrite (glue_mpieces_all maxLen Hm) by (assumption || lia).
      cbn [last_flush truthy glue]. now rewrite ?app_nil_r.
    + split; [| now rewrite app_nil_r].
      assert (Hc' : c1 ++ sep ++ p1 <> []) by (destruct c1; [contradiction | discriminate]).
      rewrite !glue_last_flush by assumption.
      cbn [glue]. now rewrite ?app_nil_r, <- ?app_assoc.
    + split; [| now rewrite app_nil_r].
      rewrite glue_last_flush by assumption.
      cbn [last_flush truthy glue]. now rewrite ?app_nil_r.
  - exact Hne.
  - split; [reflexivity | exact I].
Qed.

(** Claim C2, as the specification states it, fails: an empty paragraph met
    while the buffer is empty leaves no trace.  The text ['\n\nabc'] with
    [maxLen = 3] comes back as the single chunk ['abc']; there is no pair
    of adjacent chunks to put a separator between, and the leading
    separator is lost. *)
Lemma leading_separator_lost :
  exists marked,
    splitMessage_marked 6 (sep ++ lit "abc") 3 = Some marked
    /\ splitMessage 6 (sep ++ lit "abc") 3 = Some (map snd marked)
    /\ map snd marked = [lit "abc"]
    /\ rejoin marked <> sep ++ lit "abc".
Proof.
  exists [(ParagraphBreak, lit "abc")].
  repeat split; try reflexivity. discriminate.
Qed.

(** Claim C2, amended.  For every [maxLen >= 1] and every text that fits in
    [maxLen] or has no empty paragraph (it neither starts nor ends with
    ['\n\n'] and has no two separators in a row), the chunker returns, and
    concatenating the chunks, with ['\n\n'] put back between two adjacent
    chunks cut at a paragraph boundary and nothing between two slices of
    one paragraph, gives the text: nothing is reordered, cut short or
    lost. *)
Theorem splitMessage_rejoin (text : str) (maxLen : Z) (fuel : nat) :
  1 <= maxLen ->
  (List.length text < fuel)%nat ->
  len text <= maxLen \/ Forall (fun p => p <> []) (split text) ->
  exists marked,
    splitMessage_marked fuel text maxLen = Some marked
    /\ splitMessage fuel text maxLen = Some (map snd marked)
    /\ rejoin marked = text.
Proof.
  intros Hm Hfuel Hpar.
  destruct (splitMessage_returns maxLen Hm fuel text Hfuel) as (marked & Hmk & H & Hr).
  exists marked. split; [exact Hmk |]. split; [exact H |].
  destruct Hr as [Ht | Ht Hle | o c Hgt Hrun].
  - now subst text.
  - cbn [rejoin glue]. apply app_nil_r.
  - destruct Hpar as [Hle | Hne]; [lia |].
    destruct (run_glue maxLen Hm _ _ _ Hrun Hne) as [Hglue Hok].
    apply rejoin_of_glue.
    + apply first_mark_ok_app; [exact Hok |].
      unfold last_flush. destruct c; exact I.
    + rewrite glue_app, Hglue, lead_join by apply split_not_nil.
      now rewrite join_split.
Qed.

Lemma splitMessage_rejoin_witness :
  exists marked,
    splitMessage_marked 11 (lit "abcdef" ++ sep ++ lit "gh") 4 = Some marked
    /\ splitMessage 11 (lit "abcdef" ++ sep ++ lit "gh") 4 = Some (map snd marked)
    /\ rejoin marked = lit "abcdef" ++ sep ++ lit "gh".
Proof.
  apply (splitMessage_rejoin (lit "abcdef" ++ sep ++ lit "gh") 4 11);
    [lia | cbn; lia | right; cbn; repeat constructor; discriminate].
Defined.

(** *** Two paragraphs *)

Lemma includes_sep_snoc_nl (a : str) :
  includes_sep a = false -> ends_with_nl a = false ->
  includes_sep (a ++ [nl]) = false.
Proof.
  induction a as [| c | c d r IHr IHdr] using str_ind2; intros Hsep Hend.
  - reflexivity.
  - cbn [ends_with_nl] in Hend. cbn [app]. rewrite includes_sep_cons2, Hend. reflexivity.
  - rewrite includes_sep_cons2 in Hsep. apply orb_false_iff in Hsep as [H1 H2].
    change ((c :: d :: r) ++ [nl]) with (c :: d :: (r ++ [nl])).
    rewrite includes_sep_cons2, H1. cbn [orb].
    apply (IHdr H2). exact Hend.
Qed.

(** The first paragraph of [a ++ sep ++ b] is [a] when the first
    occurrence of the separator is the one written: none inside [a] and
    none straddling the end of [a]. *)
Lemma split_app_sep (a b : str) :
  includes_sep (a ++ [nl]) = false -> split (a ++ sep ++ b) = a :: split b.
Proof.
  induction a as [| c | c d r IHr IHdr] using str_ind2; intros H.
  - reflexivity.
  - cbn [app] in H. rewrite includes_sep_cons2 in H.
    apply orb_false_iff in H as [H _].
    change ([c] ++ sep ++ b) with (c :: nl :: ([] ++ nl :: b)).
    rewrite split_cons2, H. cbn [app].
    destruct b as [| x b]; reflexivity.
  - change ((c :: d :: r) ++ [nl]) with (c :: d :: (r ++ [nl])) in H.
    rewrite includes_sep_cons2 in H. apply orb_false_iff in H as [H1 H2].
    change ((c :: d :: r) ++ sep ++ b) with (c :: d :: (r ++ sep ++ b)).
    rewrite split_cons2, H1.
    change (d :: r ++ sep ++ b) with ((d :: r) ++ sep ++ b).
    now rewrite (IHdr H2).
Qed.

Lemma body_start (fuel : nat) (maxLen : Z) (ps : list str) (p : str) :
  len p <= maxLen ->
  body fuel maxLen (mkState ps []) p = Some (mkState ps p).
Proof.
  intros Hle. unfold body. cbn [chunk parts truthy app].
  destruct (Z.ltb_spec maxLen (len p)); [lia | reflexivity].
Qed.

Lemma body_flush (fuel : nat) (maxLen : Z) (ps : list str) (c p : str) :
  c <> [] -> maxLen < len c + 2 + len p ->
  body fuel maxLen (mkState ps c) p = Some (mkState (ps ++ [c]) p).
Proof.
  intros Hc Hover. unfold body. cbn [chunk parts].
  apply truthy_true in Hc. rewrite Hc.
  destruct (Z.ltb_spec maxLen (len (c ++ sep ++ p))) as [_ | Hle]; [reflexivity |].
  rewrite !len_app, len_sep in Hle. lia.
Qed.

(** A paragraph holds no separator. *)
Lemma split_head (d : ascii) (r : str) (q : str) (qs : list str) :
  split (d :: r) = q :: qs -> q = [] \/ exists q', q = d :: q'.
Proof.
  destruct r as [| e r].
  - intros E. injection E as <- _. right. now exists [].
  - rewrite split_cons2. destruct (is_nl d && is_nl e).
    + intros E. injection E as <- _. now left.
    + destruct (split (e :: r)) as [| q0 qs0] eqn:E0; cbn [cons_head];
        intros E; injection E as <- _; right; eexists; reflexivity.
Qed.

Lemma paragraph_no_sep (p s : str) : In p (split s) -> includes_sep p = false.
Proof.
  revert p. induction s as [| c | c d r IHr IHdr] using str_ind2; intros p Hin.
  - destruct Hin as [<- | []]. reflexivity.
  - destruct Hin as [<- | []]. reflexivity.
  - rewrite split_cons2 in Hin. destruct (is_nl c && is_nl d) eqn:E.
    + destruct Hin as [<- | Hin]; [reflexivity | now apply IHr].
    + destruct (split (d :: r)) as [| q qs] eqn:E0;
        [now apply split_not_nil in E0 |].
      cbn [cons_head] in Hin. destruct Hin as [<- | Hin].
      * assert (Hq : includes_sep q = false) by (apply IHdr; now left).
        destruct (split_head d r q qs E0) as [-> | (q' & ->)]; [reflexivity |].
        now rewrite includes_sep_cons2, E, Hq.
      * apply IHdr. now right.
Qed.

(** Two paragraphs that fit one by one but not together. *)
Lemma splitMessage_two_paragraphs_split
  (text p1 p2 : str) (maxLen : Z) (fuel : nat) :
  split text = [p1; p2] ->
  p1 <> [] -> p2 <> [] ->
  len p1 <= maxLen -> len p2 <= maxLen ->
  maxLen < len p1 + 2 + len p2 ->
  splitMessage fuel text maxLen = Some [p1; p2].
Proof.
  intros Hsplit Hn1 Hn2 Hl1 Hl2 Hover.
  assert (Htext : text = p1 ++ sep ++ p2).
  { rewrite <- (join_split text), Hsplit. reflexivity. }
  assert (Hlen : len text = len p1 + 2 + len p2).
  { rewrite Htext, !len_app, len_sep. lia. }
  unfold splitMessage. rewrite Hsplit.
  assert (Ht : truthy text = true).
  { apply truthy_true. rewrite Htext. destruct p1; [contradiction | discriminate]. }
  rewrite Ht. cbn [negb].
  destruct (Z.leb_spec (len text) maxLen) as [Hle | _]; [lia |].
  cbn [for_of].
  rewrite body_start by exact Hl1. cbn [bind].
  rewrite body_flush by assumption. cbn [bind chunk parts app].
  apply truthy_true in Hn2. now rewrite Hn2.
Qed.

(** The same for a text written as [p1 ++ sep ++ p2]: the paragraphs of
    the text are [p1] and [p2] when the first ['\n\n'] of the text is
    the one written, that is when neither holds one and [p1] does not end
    with a line feed. *)
Lemma splitMessage_two_paragraphs (p1 p2 : str) (maxLen : Z) (fuel : nat) :
  includes_sep p1 = false -> ends_with_nl p1 = false ->
  includes_sep p2 = false ->
  p1 <> [] -> p2 <> [] ->
  len p1 <= maxLen -> len p2 <= maxLen ->
  maxLen < len p1 + 2 + len p2 ->
  splitMessage fuel (p1 ++ sep ++ p2) maxLen = Some [p1; p2].
Proof.
  intros Hs1 He1 Hs2 Hn1 Hn2 Hl1 Hl2 Hover.
  apply splitMessage_two_paragraphs_split; try assumption.
  rewrite split_app_sep by now apply includes_sep_snoc_nl.
  now rewrite (split_no_sep p2 Hs2).
Qed.

(** Claim C8.  A text that consists of exactly two paragraphs [para1] and
    [para2], that is whose paragraphs ([text.split('\n\n')]) are these
    two, each of 1900 characters, comes back with [maxLen = 2000] as
    exactly the two paragraphs: joined by the separator they would exceed
    2000.  Such a text is the two paragraphs joined by one ['\n\n'], and
    neither paragraph holds a ['\n\n']. *)
Theorem splitMessage_two_of_1900 (text para1 para2 : str) (fuel : nat) :
  split text = [para1; para2] ->
  len para1 = 1900 ->
  len para2 = 1900 ->
  splitMessage fuel text 2000 = Some [para1; para2]
  /\ text = para1 ++ sep ++ para2
  /\ includes_sep para1 = false
  /\ includes_sep para2 = false.
Proof.
  intros Hsplit Hl1 Hl2. split; [| split; [| split]].
  - apply splitMessage_two_paragraphs_split; try assumption; try lia.
    + intros ->. discriminate.
    + intros ->. discriminate.
  - rewrite <- (join_split text), Hsplit. reflexivity.
  - apply (paragraph_no_sep para1 text). rewrite Hsplit. now left.
  - apply (paragraph_no_sep para2 text). rewrite Hsplit. right. now left.
Qed.

Lemma splitMessage_two_of_1900_witness :
  splitMessage 0 (repeat "a"%char 1900 ++ sep ++ repeat "b"%char 1900) 2000
  = Some [repeat "a"%char 1900; repeat "b"%char 1900]
  /\ repeat "a"%char 1900 ++ sep ++ repeat "b"%char 1900
     = repeat "a"%char 1900 ++ sep ++ repeat "b"%char 1900
  /\ includes_sep (repeat "a"%char 1900) = false
  /\ includes_sep (repeat "b"%char 1900) = false.
Proof.
  apply (splitMessage_two_of_1900
           (repeat "a"%char 1900 ++ sep ++ repeat "b"%char 1900)
           (repeat "a"%char 1900) (repeat "b"%char 1900) 0);
    vm_compute; reflexivity.
Defined.

(** *** The length bound *)

(** The chunks pushed so far and the buffer are at most [maxLen] long
    or are whole paragraphs among those met so far. *)
Lemma run_bounded_or_paragraph (maxLen : Z) :
  1 <= maxLen ->
  forall ps o c,
    run maxLen [] ps o c ->
    Forall (fun x => len x <= maxLen \/ In x ps) (map snd o)
    /\ (len c <= maxLen \/ In c ps).
Proof.
  intros Hm ps o c Hrun.
  apply (run_invariant maxLen (fun _ => True)
           (fun done out c =>
              Forall (fun x => len x <= maxLen \/ In x done) (map snd out)
              /\ (len c <= maxLen \/ In c done)))
    with (done := []) (out := []) in Hrun.
  - exact Hrun.
  - intros done out c0 p o0 c' _ [Hout Hc] Hs.
    assert (Hmono : forall x, len x <= maxLen \/ In x done ->
                              len x <= maxLen \/ In x (done ++ [p])).
    { intros x [Hx | Hx]; [now left | right; apply in_or_app; now left]. }
    rewrite map_app, Forall_app.
    apply (Forall_impl _ Hmono) in Hout.
    destruct Hs as [c1 p1 Hc1 Hover | p1 n Hp Hn | c1 p1 Hc1 Hfit | p1 Hfit].
    + split; [split; [exact Hout | constructor; [now apply Hmono | constructor]] |].
      right. apply in_or_app. right. now left.
    + split; [split; [exact Hout |] | left; cbn; lia].
      rewrite snd_mpieces.
      eapply Forall_impl; [| apply (Forall_pieces maxLen Hm p1 n); lia].
      cbn. intros a Ha. left. lia.
    + split; [split; [exact Hout | constructor] |].
      left. rewrite !len_app, len_sep. lia.
    + split; [split; [exact Hout | constructor] | now left].
  - apply Forall_forall. trivial.
  - split; [constructor | left; cbn; lia].
Qed.

(** Property X1.  What does hold of the lengths: a chunk is at most [maxLen] long, or
    it is a whole paragraph of the text. *)
Lemma splitMessage_bounded_or_paragraph (text : str) (maxLen : Z) (fuel : nat) :
  1 <= maxLen ->
  (List.length text < fuel)%nat ->
  exists chunks,
    splitMessage fuel text maxLen = Some chunks
    /\ Forall (fun c => len c <= maxLen \/ In c (split text)) chunks.
Proof.
  intros Hm Hfuel.
  destruct (splitMessage_returns maxLen Hm fuel text Hfuel) as (marked & _ & H & Hr).
  exists (map snd marked). split; [exact H |].
  destruct Hr as [Ht | Ht Hle | o c Hgt Hrun].
  - constructor.
  - repeat constructor. exact Hle.
  - destruct (run_bounded_or_paragraph maxLen Hm _ _ _ Hrun) as [Hout Hc].
    rewrite map_app. apply Forall_app. split; [exact Hout |].
    unfold last_flush. destruct (truthy c); constructor; [exact Hc | constructor].
Qed.

(** Claim C1 fails on the code: a paragraph longer than [maxLen] that arrives
    while the buffer holds something is stored whole as the new buffer and
    pushed later without being sliced.  With the limit of 2000 that the
    bot passes, the text ['a\n\n'] followed by 2001 times ['b'] comes
    back as ['a'] and a chunk of 2001 characters. *)
Theorem overlong_paragraph_pushed_whole :
  splitMessage 0 (lit "a" ++ sep ++ repeat "b"%char 2001) 2000
  = Some [lit "a"; repeat "b"%char 2001]
  /\ In (repeat "b"%char 2001) [lit "a"; repeat "b"%char 2001]
  /\ 2000 < len (repeat "b"%char 2001).
Proof.
  split; [vm_compute; reflexivity |].
  split; [right; left; reflexivity | vm_compute; reflexivity].
Qed.

(** ** Further properties of the chunker *)

(** *** Helpers shared by the properties below *)

Lemma run_chunks_nonempty (maxLen : Z) :
  1 <= maxLen ->
  forall ps o c,
    run maxLen [] ps o c -> Forall (fun x => x <> []) (map snd o).
Proof.
  intros Hm ps o c Hrun.
  apply (run_invariant maxLen (fun _ => True)
           (fun _ out _ => Forall (fun x : str => x <> []) (map snd out)))
    with (done := []) (out := []) in Hrun.
  - exact Hrun.
  - intros done out c0 p o0 c' _ HI Hs. rewrite map_app. apply Forall_app.
    split; [exact HI |].
    destruct Hs as [c1 p1 Hc _ | p1 n Hp Hn | c1 p1 _ _ | p1 _].
    + constructor; [exact Hc | constructor].
    + rewrite snd_mpieces.
      eapply Forall_impl; [| apply (Forall_pieces maxLen Hm p1 n); lia].
      cbn. intros a Ha E. subst a. cbn in Ha. lia.
    + constructor.
    + constructor.
  - apply Forall_forall. trivial.
  - constructor.
Qed.

Lemma snd_last_flush (c : str) :
  map snd (last_flush c) = if truthy c then [c] else [].
Proof. unfold last_flush. destruct (truthy c); reflexivity. Qed.

(** *** Chunk lengths *)

(** Property X2.  When no paragraph of the text is longer than [maxLen], the length
    bound holds: for every [maxLen >= 1] the chunker returns, and every
    chunk has between 1 and [maxLen] characters. *)
Theorem splitMessage_bounded_when_paragraphs_fit
  (text : str) (maxLen : Z) (fuel : nat) :
  1 <= maxLen ->
  (List.length text < fuel)%nat ->
  Forall (fun p => len p <= maxLen) (split text) ->
  exists chunks,
    splitMessage fuel text maxLen = Some chunks
    /\ Forall (fun c => 1 <= len c <= maxLen) chunks.
Proof.
  intros Hm Hfuel Hfit.
  destruct (splitMessage_returns maxLen Hm fuel text Hfuel) as (marked & _ & H & Hr).
  exists (map snd marked). split; [exact H |].
  assert (Hpos : forall x : str, x <> [] -> 1 <= len x).
  { intros x Hx. apply len_pos in Hx. lia. }
  destruct Hr as [Ht | Ht Hle | o c Hgt Hrun].
  - constructor.
  - constructor; [| constructor]. cbn [snd]. split; [now apply Hpos | exact Hle].
  - destruct (run_bounded_or_paragraph maxLen Hm _ _ _ Hrun) as [Hout Hc].
    pose proof (run_chunks_nonempty maxLen Hm _ _ _ Hrun) as Hne.
    assert (Hin : forall x, len x <= maxLen \/ In x (split text) -> len x <= maxLen).
    { intros x [Hx | Hx]; [exact Hx |].
      rewrite Forall_forall in Hfit. now apply Hfit. }
    rewrite map_app. apply Forall_app. split.
    + rewrite Forall_forall in *. intros x Hx.
      split; [apply Hpos; now apply Hne | apply Hin; now apply Hout].
    + rewrite snd_last_flush. destruct c as [| y c]; cbn [truthy]; constructor;
        [| constructor].
      split; [apply Hpos; discriminate | now apply Hin].
Qed.

Lemma splitMessage_bounded_when_paragraphs_fit_witness :
  exists chunks,
    splitMessage 11 (lit "ab" ++ sep ++ lit "cde" ++ sep ++ lit "f") 3 = Some chunks
    /\ Forall (fun c => 1 <= len c <= 3) chunks.
Proof.
  apply (splitMessage_bounded_when_paragraphs_fit
           (lit "ab" ++ sep ++ lit "cde" ++ sep ++ lit "f") 3 11);
    [lia | cbn; lia | cbn; repeat constructor; cbn; lia].
Defined.

Lemma splitMessage_bounded_or_paragraph_witness :
  exists chunks,
    splitMessage 8 (lit "a" ++ sep ++ lit "bbbb") 3 = Some chunks
    /\ Forall (fun c => len c <= 3 \/ In c (split (lit "a" ++ sep ++ lit "bbbb")))
         chunks.
Proof.
  apply (splitMessage_bounded_or_paragraph (lit "a" ++ sep ++ lit "bbbb") 3 8);
    [lia | cbn; lia].
Defined.

(** *** A limit that is not positive *)

(** With [maxLen <= 0] the loop stops at the first paragraph that is not
    empty: the buffer is still empty there, the paragraph is force-sliced,
    and the index never moves forward. *)
Lemma for_of_stuck (maxLen : Z) (fuel : nat) :
  maxLen <= 0 ->
  forall ps out,
    Exists (fun p => p <> []) ps ->
    for_of fuel maxLen ps (mkState out []) = None.
Proof.
  intros Hm. induction ps as [| p ps IH]; intros out Hex; [inversion Hex |].
  cbn [for_of]. unfold body. cbn [chunk parts truthy app].
  destruct p as [| x p].
  - assert (Hex' : Exists (fun p : str => p <> []) ps).
    { inversion Hex as [? ? H | ? ? H]; [now contradiction H | exact H]. }
    destruct (maxLen <? len []); cbn [bind].
    + destruct fuel as [| fuel]; [reflexivity |].
      cbn [force_slice]. cbn [len List.length Z.of_nat Z.ltb Z.compare bind].
      now apply IH.
    + now apply IH.
  - pose proof (len_nonneg p) as Hp.
    destruct (Z.ltb_spec maxLen (len (x :: p))) as [_ | Hle];
      [| rewrite len_cons in Hle; lia].
    rewrite force_slice_stuck; [reflexivity | exact Hm | rewrite len_cons; lia].
Qed.

Lemma for_of_blank (maxLen : Z) (fuel : nat) :
  maxLen <= 0 -> (1 <= fuel)%nat ->
  forall ps out,
    Forall (fun p => p = []) ps ->
    for_of fuel maxLen ps (mkState out []) = Some (mkState out []).
Proof.
  intros Hm Hfuel. induction ps as [| p ps IH]; intros out Hall; [reflexivity |].
  inversion Hall as [| ? ? Hp Hps]; subst.
  cbn [for_of]. unfold body. cbn [chunk parts truthy app].
  destruct (maxLen <? len []); cbn [bind].
  - destruct fuel as [| fuel]; [lia |].
    cbn [force_slice]. cbn [len List.length Z.of_nat Z.ltb Z.compare bind].
    now apply IH.
  - now apply IH.
Qed.

(** Property X3.  The function does not check [maxLen].  With [maxLen <= 0] it never
    returns on a text that has a non-empty paragraph, whatever the fuel;
    on the other texts (empty, or made of ['\n\n'] separators only) it
    returns the empty sequence. *)
Theorem splitMessage_nonpositive_maxLen (text : str) (maxLen : Z) :
  maxLen <= 0 ->
  (Exists (fun p => p <> []) (split text) ->
     forall fuel, splitMessage fuel text maxLen = None)
  /\ (Forall (fun p => p = []) (split text) ->
      forall fuel, (1 <= fuel)%nat -> splitMessage fuel text maxLen = Some []).
Proof.
  intros Hm. split.
  - intros Hex fuel. unfold splitMessage.
    destruct text as [| x text].
    + cbn in Hex. inversion Hex as [? ? H | ? ? H]; [now contradiction H | inversion H].
    + cbn [truthy negb]. pose proof (len_nonneg text) as Ht.
      destruct (Z.leb_spec (len (x :: text)) maxLen) as [Hle | _];
        [rewrite len_cons in Hle; lia |].
      now rewrite for_of_stuck.
  - intros Hall fuel Hfuel. unfold splitMessage.
    destruct text as [| x text]; [reflexivity |].
    cbn [truthy negb]. pose proof (len_nonneg text) as Ht.
    destruct (Z.leb_spec (len (x :: text)) maxLen) as [Hle | _];
      [rewrite len_cons in Hle; lia |].
    now rewrite for_of_blank.
Qed.

Lemma splitMessage_nonpositive_maxLen_witness :
  (Exists (fun p => p <> []) (split (lit "ab")) ->
     forall fuel, splitMessage fuel (lit "ab") 0 = None)
  /\ (Forall (fun p => p = []) (split (lit "ab")) ->
      forall fuel, (1 <= fuel)%nat -> splitMessage fuel (lit "ab") 0 = Some []).
Proof.
  apply (splitMessage_nonpositive_maxLen (lit "ab") 0). lia.
Defined.

(** *** Nothing but line feeds is lost *)

Lemma without_nl_app (s t : str) :
  without_nl (s ++ t) = without_nl s ++ without_nl t.
Proof. apply filter_app. Qed.

Lemma without_nl_join (l : list str) :
  without_nl (join l) = without_nl (List.concat l).
Proof.
  induction l as [| p l IH]; [reflexivity |].
  destruct l as [| q l].
  - cbn [join List.concat]. now rewrite app_nil_r.
  - rewrite join_cons by discriminate.
    cbn [List.concat] in *. rewrite !without_nl_app, IH.
    now rewrite without_nl_app.
Qed.

Lemma run_without_nl (maxLen : Z) :
  1 <= maxLen ->
  forall ps o c,
    run maxLen [] ps o c ->
    without_nl (List.concat (map snd o)) ++ without_nl c
    = without_nl (List.concat ps).
Proof.
  intros Hm ps o c Hrun.
  apply (run_invariant maxLen (fun _ => True)
           (fun done out c =>
              without_nl (List.concat (map snd out)) ++ without_nl c
              = without_nl (List.concat done)))
    with (done := []) (out := []) in Hrun.
  - exact Hrun.
  - intros done out c0 p o0 c' _ HI Hs.
    rewrite map_app, !concat_app, !without_nl_app, <- HI.
    cbn [List.concat]. rewrite app_nil_r.
    destruct Hs as [c1 p1 Hc Hover | p1 n Hp Hn | c1 p1 Hc Hfit | p1 Hfit].
    + cbn [map snd List.concat]. now rewrite app_nil_r, <- !app_assoc.
    + rewrite snd_mpieces, (concat_pieces_all maxLen Hm) by lia.
      cbn [without_nl filter]. now rewrite !app_nil_r.
    + cbn [map List.concat]. rewrite !without_nl_app.
      cbn [without_nl filter app]. now rewrite !app_nil_r, <- ?app_assoc.
    + cbn [map List.concat without_nl filter]. now rewrite !app_nil_r.
  - apply Forall_forall. trivial.
  - reflexivity.
Qed.

(** Property X4.  No character other than a line feed is lost, added or moved: for
    every text and every [maxLen >= 1] the chunker returns, and the
    chunks, concatenated, are the text up to line feeds. *)
Theorem splitMessage_keeps_characters (text : str) (maxLen : Z) (fuel : nat) :
  1 <= maxLen ->
  (List.length text < fuel)%nat ->
  exists chunks,
    splitMessage fuel text maxLen = Some chunks
    /\ without_nl (List.concat chunks) = without_nl text.
Proof.
  intros Hm Hfuel.
  destruct (splitMessage_returns maxLen Hm fuel text Hfuel) as (marked & _ & H & Hr).
  exists (map snd marked). split; [exact H |].
  destruct Hr as [Ht | Ht Hle | o c Hgt Hrun].
  - now subst text.
  - cbn [map snd List.concat]. now rewrite app_nil_r.
  - rewrite map_app, concat_app, without_nl_app, snd_last_flush.
    transitivity (without_nl (join (split text))); [| now rewrite join_split].
    rewrite without_nl_join, <- (run_without_nl maxLen Hm _ _ _ Hrun).
    destruct c; cbn [truthy List.concat]; now rewrite ?app_nil_r.
Qed.

Lemma splitMessage_keeps_characters_witness :
  exists chunks,
    splitMessage 13 (sep ++ lit "abcdef" ++ sep ++ lit "gh") 4 = Some chunks
    /\ without_nl (List.concat chunks)
       = without_nl (sep ++ lit "abcdef" ++ sep ++ lit "gh").
Proof.
  apply (splitMessage_keeps_characters (sep ++ lit "abcdef" ++ sep ++ lit "gh") 4 13);
    [lia | cbn; lia].
Defined.

(** *** Chunks are pieces of the text *)

Lemma substring_app_l (x s t : str) : substring x s -> substring x (s ++ t).
Proof.
  intros (a & b & ->). exists a, (b ++ t). now rewrite <- !app_assoc.
Qed.

Lemma substring_app_r (x s t : str) : substring x s -> substring x (t ++ s).
Proof.
  intros (a & b & ->). exists (t ++ a), b. now rewrite <- !app_assoc.
Qed.

Lemma substring_suffix (x pre : str) : substring x (pre ++ x).
Proof. exists pre, []. now rewrite app_nil_r. Qed.

Lemma substring_slice (p : str) (a b : Z) : substring (slice p a b) p.
Proof.
  unfold slice.
  set (m := Z.to_nat (rel_index (len p) a)).
  set (n := Z.to_nat (rel_index (len p) b - rel_index (len p) a)).
  exists (firstn m p), (skipn n (skipn m p)).
  now rewrite firstn_skipn, firstn_skipn.
Qed.

Lemma join_snoc (done : list str) (p : str) :
  exists s0,
    join (done ++ [p]) = join done ++ s0 ++ p
    /\ (done <> [] -> s0 = sep).
Proof.
  induction done as [| q done IH].
  - exists []. split; [reflexivity | congruence].
  - exists sep. split; [| reflexivity].
    destruct IH as (s0 & E & Hs0).
    change ((q :: done) ++ [p]) with (q :: (done ++ [p])).
    rewrite join_cons
      by (intros E0; apply app_eq_nil in E0 as [_ E0]; discriminate).
    destruct done as [| q' done].
    + reflexivity.
    + rewrite E, (Hs0 ltac:(discriminate)).
      rewrite (join_cons q (q' :: done)) by discriminate.
      now rewrite <- !app_assoc.
Qed.

(** The chunks pushed so far occur in the text read so far, and the
    buffer is its end. *)
Lemma run_substrings (maxLen : Z) :
  forall ps o c,
    run maxLen [] ps o c ->
    Forall (fun x => substring x (join ps)) (map snd o)
    /\ (exists pre, join ps = pre ++ c).
Proof.
  intros ps o c Hrun.
  apply (run_invariant maxLen (fun _ => True)
           (fun done out c =>
              Forall (fun x => substring x (join done)) (map snd out)
              /\ (exists pre, join done = pre ++ c)))
    with (done := []) (out := []) in Hrun.
  - exact Hrun.
  - intros done out c0 p o0 c' _ [Hout (pre & Hpre)] Hs.
    destruct (join_snoc done p) as (s0 & E & Hs0). rewrite E.
    assert (Hout' : Forall (fun x => substring x (join done ++ s0 ++ p)) (map snd out)).
    { eapply Forall_impl; [| exact Hout]. intros x. apply substring_app_l. }
    rewrite map_app, Forall_app.
    destruct Hs as [c1 p1 Hc Hover | p1 n Hp Hn | c1 p1 Hc Hfit | p1 Hfit].
    + split; [split; [exact Hout' |] |].
      * constructor; [| constructor]. cbn [snd].
        apply substring_app_l. rewrite Hpre. apply substring_suffix.
      * exists (join done ++ s0). now rewrite <- app_assoc.
    + split; [split; [exact Hout' |] |].
      * rewrite snd_mpieces. unfold pieces. apply Forall_map, Forall_forall.
        intros k _. rewrite app_assoc. apply substring_app_r, substring_slice.
      * exists (join done ++ s0 ++ p1). now rewrite app_nil_r.
    + split; [split; [exact Hout' | constructor] |].
      assert (Hd : done <> []).
      { intros ->. cbn [join] in Hpre. symmetry in Hpre.
        apply app_eq_nil in Hpre as [_ Hpre]. contradiction. }
      exists pre. rewrite (Hs0 Hd), Hpre. now rewrite <- !app_assoc.
    + split; [split; [exact Hout' | constructor] |].
      exists (join done ++ s0). now rewrite <- app_assoc.
  - apply Forall_forall. trivial.
  - split; [constructor | now exists []].
Qed.

(** Property X5.  Every chunk is a run of consecutive characters of the text: for
    every text and every [maxLen >= 1] the chunker returns, and each
    chunk occurs in the text as it is. *)
Theorem splitMessage_chunks_are_substrings (text : str) (maxLen : Z) (fuel : nat) :
  1 <= maxLen ->
  (List.length text < fuel)%nat ->
  exists chunks,
    splitMessage fuel text maxLen = Some chunks
    /\ Forall (fun c => substring c text) chunks.
Proof.
  intros Hm Hfuel.
  destruct (splitMessage_returns maxLen Hm fuel text Hfuel) as (marked & _ & H & Hr).
  exists (map snd marked). split; [exact H |].
  destruct Hr as [Ht | Ht Hle | o c Hgt Hrun].
  - constructor.
  - constructor; [| constructor]. apply (substring_suffix text []).
  - destruct (run_substrings maxLen _ _ _ Hrun) as [Hout (pre & Hpre)].
    rewrite join_split in Hout, Hpre.
    rewrite map_app. apply Forall_app. split; [exact Hout |].
    rewrite snd_last_flush. destruct (truthy c); constructor; [| constructor].
    rewrite Hpre. apply substring_suffix.
Qed.

Lemma splitMessage_chunks_are_substrings_witness :
  exists chunks,
    splitMessage 13 (sep ++ lit "abcdef" ++ sep ++ lit "gh") 4 = Some chunks
    /\ Forall (fun c => substring c (sep ++ lit "abcdef" ++ sep ++ lit "gh")) chunks.
Proof.
  apply (splitMessage_chunks_are_substrings
           (sep ++ lit "abcdef" ++ sep ++ lit "gh") 4 13);
    [lia | cbn; lia].
Defined.

(** *** Paragraphs that fit are not cut *)

Lemma run_app_inv (maxLen : Z) (l1 l2 : list str) :
  forall c0 o c,
    run maxLen c0 (l1 ++ l2) o c ->
    exists o1 c1 o2,
      run maxLen c0 l1 o1 c1 /\ run maxLen c1 l2 o2 c /\ o = o1 ++ o2.
Proof.
  induction l1 as [| q l1 IH]; intros c0 o c Hrun.
  - exists [], c0, o. split; [constructor | split; [exact Hrun | reflexivity]].
  - cbn [app] in Hrun. inversion Hrun as [| ? ? o' c' ? o'' ? Hs Hrest]; subst.
    destruct (IH _ _ _ Hrest) as (o1 & c1 & o2 & H1 & H2 & ->).
    exists (o' ++ o1), c1, o2.
    split; [econstructor; eassumption | split; [exact H2 | now rewrite app_assoc]].
Qed.

(** The line-feed-free content of a run that starts with any buffer. *)
Lemma run_without_nl_from (maxLen : Z) :
  1 <= maxLen ->
  forall c0 ps o c,
    run maxLen c0 ps o c ->
    without_nl (List.concat (map snd o)) ++ without_nl c
    = without_nl c0 ++ without_nl (List.concat ps).
Proof.
  intros Hm c0 ps o c Hrun.
  apply (run_invariant maxLen (fun _ => True)
           (fun done out c =>
              without_nl (List.concat (map snd out)) ++ without_nl c
              = without_nl c0 ++ without_nl (List.concat done)))
    with (done := []) (out := []) in Hrun.
  - exact Hrun.
  - intros done out c1 p o0 c' _ HI Hs.
    rewrite map_app, !concat_app, !without_nl_app, app_assoc, <- HI.
    cbn [List.concat]. rewrite app_nil_r.
    destruct Hs as [c2 p1 Hc Hover | p1 n Hp Hn | c2 p1 Hc Hfit | p1 Hfit].
    + cbn [map snd List.concat]. now rewrite app_nil_r, <- !app_assoc.
    + rewrite snd_mpieces, (concat_pieces_all maxLen Hm) by lia.
      cbn [without_nl filter]. now rewrite !app_nil_r.
    + cbn [map List.concat]. rewrite !without_nl_app.
      cbn [without_nl filter app]. now rewrite !app_nil_r, <- ?app_assoc.
    + cbn [map List.concat without_nl filter]. now rewrite !app_nil_r.
  - apply Forall_forall. trivial.
  - cbn [map List.concat without_nl filter app]. now rewrite app_nil_r.
Qed.

(** A paragraph that fits goes whole to the end of the buffer. *)
Lemma step_keeps_paragraph (maxLen : Z) (c1 p : str) (o : list mchunk) (c2 : str) :
  step maxLen c1 p o c2 ->
  len p <= maxLen ->
  exists u,
    c2 = u ++ p
    /\ without_nl (List.concat (map snd o) ++ u) = without_nl c1.
Proof.
  intros Hs Hfit.
  destruct Hs as [c p1 Hc Hover | p1 n Hp Hn | c p1 Hc Hfit1 | p1 Hfit1].
  - exists []. split; [reflexivity |]. cbn [map snd List.concat]. now rewrite !app_nil_r.
  - lia.
  - exists (c ++ sep). split; [now rewrite <- app_assoc |].
    cbn [map List.concat app]. rewrite without_nl_app. cbn [without_nl filter].
    apply app_nil_r.
  - exists []. split; reflexivity.
Qed.

(** A buffer that holds something is pushed sooner or later, with what
    the following paragraphs add to it; the chunks after it hold the rest
    of these paragraphs. *)
Lemma run_pushes_buffer (maxLen : Z) :
  1 <= maxLen ->
  forall c0 ps o c,
    run maxLen c0 ps o c ->
    c0 <> [] ->
    exists v ca,
      map snd (o ++ last_flush c) = (c0 ++ v) :: ca
      /\ without_nl (v ++ List.concat ca) = without_nl (List.concat ps).
Proof.
  intros Hm c0 ps o c Hrun.
  induction Hrun as [c | c p o c1 ps o' c2 Hs Hrest IH]; intros Hc0.
  - exists [], []. destruct c as [| x c]; [contradiction |].
    split; [cbn; now rewrite app_nil_r | reflexivity].
  - destruct Hs as [c p1 Hc Hover | p1 n Hp Hn | c p1 Hc Hfit | p1 Hfit];
      try contradiction.
    + exists [], (map snd (o' ++ last_flush c2)).
      split; [cbn [app map snd]; now rewrite app_nil_r |].
      cbn [app List.concat].
      rewrite map_app, concat_app, !without_nl_app, snd_last_flush.
      rewrite <- (run_without_nl_from maxLen Hm _ _ _ _ Hrest).
      destruct c2; cbn [truthy List.concat]; now rewrite ?app_nil_r.
    + destruct IH as (v & ca & E & Hv).
      { destruct c; [contradiction | discriminate]. }
      exists (sep ++ p1 ++ v), ca. split.
      * cbn [app]. rewrite E. now rewrite <- !app_assoc.
      * cbn [List.concat]. rewrite <- !app_assoc, !without_nl_app.
        rewrite <- without_nl_app, Hv. reflexivity.
Qed.

Lemma join_middle (l1 : list str) (p : str) (l2 : list str) :
  join (l1 ++ p :: l2) = trail l1 ++ p ++ lead l2.
Proof.
  induction l1 as [| q l1 IH].
  - cbn [app trail map List.concat]. destruct l2 as [| q l2].
    + cbn. now rewrite app_nil_r.
    + rewrite join_cons by discriminate. now rewrite lead_join by discriminate.
  - change ((q :: l1) ++ p :: l2) with (q :: (l1 ++ p :: l2)).
    rewrite join_cons by (intros E; apply app_eq_nil in E as [_ E]; discriminate).
    rewrite IH. unfold trail. cbn [map List.concat]. now rewrite <- !app_assoc.
Qed.

Lemma without_nl_trail (l : list str) :
  without_nl (trail l) = without_nl (List.concat l).
Proof.
  induction l as [| q l IH]; [reflexivity |].
  unfold trail in *. cbn [map List.concat]. rewrite !without_nl_app, IH.
  cbn [without_nl filter]. now rewrite app_nil_r.
Qed.

Lemma without_nl_lead (l : list str) :
  without_nl (lead l) = without_nl (List.concat l).
Proof.
  induction l as [| q l IH]; [reflexivity |].
  unfold lead in *. cbn [map List.concat]. rewrite !without_nl_app, IH.
  reflexivity.
Qed.

(** Property X6.  A paragraph is cut only when it has to be.  Take any
    occurrence of a non-empty paragraph [p] with [len p <= maxLen] among
    the paragraphs of the text, [before] it and [after] it.  For every
    [maxLen >= 1] the chunker returns, and the sequence of chunks is
    [cb], then one chunk [u ++ p ++ v] that holds this paragraph whole,
    then [ca]; what comes in front of [p] (the chunks [cb] and [u]) holds
    the characters of the paragraphs before it, and what comes behind
    ([v] and the chunks [ca]) those of the paragraphs after it, line
    feeds apart. *)
Theorem paragraph_that_fits_is_not_cut
  (text : str) (maxLen : Z) (fuel : nat) (before : list str) (p : str)
  (after : list str) :
  1 <= maxLen ->
  (List.length text < fuel)%nat ->
  split text = before ++ p :: after ->
  p <> [] ->
  len p <= maxLen ->
  exists cb u v ca,
    splitMessage fuel text maxLen = Some (cb ++ (u ++ p ++ v) :: ca)
    /\ without_nl (List.concat cb ++ u) = without_nl (List.concat before)
    /\ without_nl (v ++ List.concat ca) = without_nl (List.concat after).
Proof.
  intros Hm Hfuel Hsplit Hp Hlen.
  destruct (splitMessage_returns maxLen Hm fuel text Hfuel) as (marked & _ & H & Hr).
  destruct Hr as [Ht | Ht Hle | o c Hgt Hrun].
  - subst text. cbn [split] in Hsplit. exfalso.
    destruct before as [| b before]; cbn [app] in Hsplit.
    + injection Hsplit as E _. now apply Hp.
    + injection Hsplit as _ E. exact (app_cons_not_nil _ _ _ E).
  - exists [], (trail before), (lead after), [].
    split; [| split].
    + rewrite H. cbn [map snd app]. do 2 f_equal.
      rewrite <- (join_split text) at 1. rewrite Hsplit. apply join_middle.
    + cbn [List.concat app]. apply without_nl_trail.
    + cbn [List.concat]. rewrite app_nil_r. apply without_nl_lead.
  - rewrite Hsplit in Hrun.
    destruct (run_app_inv maxLen _ _ _ _ _ Hrun) as (o1 & c1 & o' & Hrun1 & Hrun' & ->).
    inversion Hrun' as [| ? ? o2 c2 ? o3 ? Hs Hrun3]; subst.
    destruct (step_keeps_paragraph maxLen _ _ _ _ Hs Hlen) as (u & -> & Hu).
    destruct (run_pushes_buffer maxLen Hm _ _ _ _ Hrun3) as (v & ca & E & Hv).
    { intros E. apply app_eq_nil in E as [_ E]. contradiction. }
    exists (map snd o1 ++ map snd o2), u, v, ca. split; [| split].
    + rewrite H. f_equal.
      replace ((o1 ++ o2 ++ o3) ++ last_flush c)
        with (o1 ++ o2 ++ (o3 ++ last_flush c)) by now rewrite <- !app_assoc.
      rewrite (map_app snd o1), (map_app snd o2), E.
      now rewrite <- !app_assoc.
    + rewrite concat_app, <- app_assoc, without_nl_app, Hu, <- without_nl_app.
      pose proof (run_without_nl_from maxLen Hm _ _ _ _ Hrun1) as H1.
      cbn [without_nl filter app] in H1.
      rewrite without_nl_app. exact H1.
    + exact Hv.
Qed.

Lemma paragraph_that_fits_is_not_cut_witness :
  exists cb u v ca,
    splitMessage 13 (lit "ab" ++ sep ++ lit "c" ++ sep ++ lit "defgh") 6
    = Some (cb ++ (u ++ lit "c" ++ v) :: ca)
    /\ without_nl (List.concat cb ++ u) = without_nl (List.concat [lit "ab"])
    /\ without_nl (v ++ List.concat ca) = without_nl (List.concat [lit "defgh"]).
Proof.
  apply (paragraph_that_fits_is_not_cut
           (lit "ab" ++ sep ++ lit "c" ++ sep ++ lit "defgh") 6 13
           [lit "ab"] (lit "c") [lit "defgh"]);
    [lia | cbn; lia | reflexivity | discriminate | cbn; lia].
Defined.

(** *** The packing is tight *)

Lemma neighbours_snoc (R : str -> str -> Prop) (s : list str) (x : str) :
  neighbours R s ->
  (forall pre a, s = pre ++ [a] -> R a x) ->
  neighbours R (s ++ [x]).
Proof.
  induction s as [| a s IH]; intros Hn Hlast; [exact I |].
  destruct s as [| b s].
  - cbn. split; [apply (Hlast [] a); reflexivity | exact I].
  - destruct Hn as [Hab Hn]. split; [exact Hab |].
    apply IH; [exact Hn |].
    intros pre a0 E. apply (Hlast (a :: pre)). now rewrite E.
Qed.

(** While no paragraph is force-sliced, two adjacent chunks would not
    have fitted in one, and neither would the last chunk and the
    buffer. *)
Lemma run_tight (maxLen : Z) :
  forall ps o c,
    run maxLen [] ps o c ->
    Forall (fun p => len p <= maxLen) ps ->
    neighbours (fun a b => maxLen < len a + 2 + len b) (map snd o)
    /\ (forall pre a, map snd o = pre ++ [a] -> maxLen < len a + 2 + len c).
Proof.
  intros ps o c Hrun Hfit.
  apply (run_invariant maxLen (fun p => len p <= maxLen)
           (fun done out c =>
              neighbours (fun a b => maxLen < len a + 2 + len b) (map snd out)
              /\ (forall pre a, map snd out = pre ++ [a] ->
                                maxLen < len a + 2 + len c)))
    with (done := []) (out := []) in Hrun.
  - exact Hrun.
  - intros done out c0 p o0 c' Hp [Hn Hlast] Hs.
    destruct Hs as [c1 p1 Hc Hover | p1 n Hp1 Hn1 | c1 p1 Hc Hfit1 | p1 Hfit1].
    + rewrite map_app. cbn [map snd]. split.
      * apply neighbours_snoc; [exact Hn | exact Hlast].
      * intros pre a E. apply app_inj_tail in E as [_ <-]. exact Hover.
    + lia.
    + rewrite app_nil_r. split; [exact Hn |].
      intros pre a E. specialize (Hlast pre a E).
      rewrite !len_app, len_sep. pose proof (len_nonneg p1). lia.
    + rewrite app_nil_r. split; [exact Hn |].
      intros pre a E. specialize (Hlast pre a E).
      cbn in Hlast. pose proof (len_nonneg p1). lia.
  - exact Hfit.
  - split; [exact I |]. intros pre a E. destruct pre; discriminate.
Qed.

(** Property X7.  The chunker packs greedily: when no paragraph of the text is longer
    than [maxLen], any two adjacent chunks, joined by ['\n\n'], would
    exceed [maxLen], so that no two consecutive messages could have been
    sent as one. *)
Theorem splitMessage_packing_is_tight (text : str) (maxLen : Z) (fuel : nat) :
  1 <= maxLen ->
  (List.length text < fuel)%nat ->
  Forall (fun p => len p <= maxLen) (split text) ->
  exists chunks,
    splitMessage fuel text maxLen = Some chunks
    /\ neighbours (fun a b => maxLen < len a + 2 + len b) chunks.
Proof.
  intros Hm Hfuel Hfit.
  destruct (splitMessage_returns maxLen Hm fuel text Hfuel) as (marked & _ & H & Hr).
  exists (map snd marked). split; [exact H |].
  destruct Hr as [Ht | Ht Hle | o c Hgt Hrun].
  - exact I.
  - exact I.
  - destruct (run_tight maxLen _ _ _ Hrun Hfit) as [Hn Hlast].
    rewrite map_app, snd_last_flush.
    destruct (truthy c); [| now rewrite app_nil_r].
    apply neighbours_snoc; [exact Hn | exact Hlast].
Qed.

Lemma splitMessage_packing_is_tight_witness :
  exists chunks,
    splitMessage 13 (lit "ab" ++ sep ++ lit "c" ++ sep ++ lit "defgh") 6 = Some chunks
    /\ neighbours (fun a b => 6 < len a + 2 + len b) chunks.
Proof.
  apply (splitMessage_packing_is_tight
           (lit "ab" ++ sep ++ lit "c" ++ sep ++ lit "defgh") 6 13);
    [lia | cbn; lia | cbn; repeat constructor; cbn; lia].
Defined.

(** ** Properties of the command handler *)

Lemma all_empty_iff (l : list str) :
  Forall (fun p => p = []) l <-> ~ Exists (fun p => p <> []) l.
Proof.
  induction l as [| p l IH].
  - split; [intros _ H; inversion H | constructor].
  - rewrite Forall_cons_iff, Exists_cons, IH. destruct p as [| x p].
    + split; [intros [_ H] [E | E]; [now apply E | now apply H] |].
      intros H. split; [reflexivity | intros E; apply H; now right].
    + split; [intros [E _]; discriminate |].
      intros H. exfalso. apply H. left. discriminate.
Qed.

Lemma In_firstn {A : Type} (k : nat) (l : list A) (x : A) :
  In x (firstn k l) -> In x l.
Proof.
  revert l. induction k as [| k IH]; intros l Hin; [contradiction |].
  destruct l as [| y l]; [contradiction |].
  destruct Hin as [-> | Hin]; [now left | right; now apply IH].
Qed.

(** What the handler knows of the chunks of an answer. *)
Lemma chunks_of_answer (fuel : nat) (a : str) :
  (List.length a < fuel)%nat ->
  exists chunks,
    splitMessage fuel a 2000 = Some chunks
    /\ Forall (fun c => c <> []) chunks
    /\ Forall (fun c => len c <= 2000 \/ In c (split a)) chunks
    /\ without_nl (List.concat chunks) = without_nl a
    /\ (chunks = [] <->
        a = [] \/ (2000 < len a /\ Forall (fun p => p = []) (split a))).
Proof.
  intros Hfuel.
  assert (Hm : 1 <= 2000) by lia.
  destruct (splitMessage_returns 2000 Hm fuel a Hfuel) as (marked & _ & H & Hr).
  exists (map snd marked). split; [exact H |].
  destruct Hr as [Ht | Ht Hle | o c Hgt Hrun].
  - subst a. cbn [map].
    split; [constructor |]. split; [constructor |]. split; [reflexivity |].
    split; [intros _; now left | reflexivity].
  - cbn [map snd]. split; [constructor; [exact Ht | constructor] |].
    split; [constructor; [now left | constructor] |].
    split; [cbn [List.concat]; now rewrite app_nil_r |].
    split; [discriminate | intros [E | [E _]]; [contradiction | lia]].
  - assert (Ha : a <> []) by (intros ->; cbn in Hgt; lia).
    destruct (run_bounded_or_paragraph 2000 Hm _ _ _ Hrun) as [Hout Hc].
    pose proof (run_chunks_nonempty 2000 Hm _ _ _ Hrun) as Hne.
    pose proof (run_without_nl 2000 Hm _ _ _ Hrun) as Hnl.
    pose proof (run_nonempty_iff 2000 Hm _ _ _ Hrun) as Hiff.
    rewrite map_app, snd_last_flush. split; [| split; [| split]].
    + apply Forall_app. split; [exact Hne |].
      destruct c; cbn [truthy]; constructor; [discriminate | constructor].
    + apply Forall_app. split; [exact Hout |].
      destruct (truthy c); constructor; [exact Hc | constructor].
    + transitivity (without_nl (join (split a))); [| now rewrite join_split].
      rewrite concat_app, without_nl_app, without_nl_join, <- Hnl.
      destruct c; cbn [truthy List.concat]; now rewrite ?app_nil_r.
    + rewrite all_empty_iff, <- Hiff. split.
      * intros E. apply app_eq_nil in E as [Eo Ec]. right. split; [exact Hgt |].
        intros [Ho | Hc']; [apply Ho; now destruct o | ].
        destruct c; [now apply Hc' | discriminate].
      * intros [E | [_ E]]; [contradiction |].
        destruct o as [| m o]; [| exfalso; apply E; left; discriminate].
        destruct c as [| x c]; [reflexivity |].
        exfalso. apply E. right. discriminate.
Qed.

Lemma planned_nonempty (chunks : list str) :
  Forall (fun c => c <> []) chunks ->
  planned chunks
  = match chunks with
    | [] => [EditReply []]
    | x :: rest => EditReply x :: map FollowUp rest
    end.
Proof.
  intros Hne. destruct chunks as [| x rest]; [reflexivity |].
  inversion Hne as [| ? ? Hx _]; subst.
  unfold planned. cbn [shift or_empty]. apply truthy_true in Hx. now rewrite Hx.
Qed.

Lemma texts_planned (chunks : list str) :
  Forall (fun c => c <> []) chunks ->
  texts (planned chunks)
  = match chunks with
    | [] => [[]]
    | _ :: _ => chunks
    end.
Proof.
  intros Hne. rewrite planned_nonempty by exact Hne.
  destruct chunks as [| x rest]; [reflexivity |].
  unfold texts. cbn [flat_map text_of app]. f_equal.
  induction rest as [| y rest IH]; [reflexivity |].
  cbn [map flat_map text_of app]. f_equal. apply IH.
  inversion Hne as [| ? ? Hx Hr]; subst. inversion Hr; subst.
  now constructor.
Qed.

(** The loop of [followUp] issues the chunks in order up to the first
    rejection. *)
Lemma follow_ups_spec (pf : platform) (rest : list str) :
  forall h,
  exists k,
    fst (follow_ups pf h rest) = h ++ firstn k (map FollowUp rest)
    /\ (snd (follow_ups pf h rest) = true ->
        firstn k (map FollowUp rest) = map FollowUp rest)
    /\ (accepts_all pf -> snd (follow_ups pf h rest) = true).
Proof.
  induction rest as [| x rest IH]; intros h.
  - exists 0%nat. cbn. rewrite app_nil_r. now repeat split.
  - cbn [follow_ups issue map]. destruct (resolves pf h (FollowUp x)) eqn:E.
    + destruct (IH (h ++ [FollowUp x])) as (k & Hfst & Hall & Hacc).
      exists (S k). cbn [firstn]. rewrite Hfst, <- app_assoc.
      split; [reflexivity |]. split; [| exact Hacc].
      intros Hok. now rewrite (Hall Hok).
    + exists 1%nat. cbn [firstn fst snd]. split; [reflexivity |].
      split; [discriminate |].
      intros Hacc. now rewrite Hacc in E.
Qed.

(** The [catch] block issues error notices only. *)
Lemma on_error_spec (pf : platform) (h : list call) :
  exists tail st,
    on_error pf h = (h ++ tail, st) /\ Forall is_notice tail.
Proof.
  unfold on_error, notify, issue.
  assert (N : forall (b : bool) n, is_notice (if b then EditReplyNotice n else Reply n)).
  { intros [] n; exact I. }
  destruct (resolves pf h _).
  - eexists [_], _. split; [reflexivity |]. constructor; [apply N | constructor].
  - eexists [_; _], _. rewrite <- app_assoc. split; [reflexivity |].
    constructor; [apply N | constructor; [apply N | constructor]].
Qed.

(** The calls of the handler on a non-empty answer. *)
Lemma on_interaction_trace (fuel : nat) (pf : platform) (a : str) (chunks : list str) :
  isChatInputCommand pf = true ->
  commandName pf = lit "ask" ->
  gemini pf = Some a ->
  a <> [] ->
  splitMessage fuel a 2000 = Some chunks ->
  exists k tail st,
    on_interaction fuel pf
    = Some (DeferReply :: firstn k (planned chunks) ++ tail, st)
    /\ Forall is_notice tail
    /\ (resolves pf [] DeferReply = true -> (1 <= k)%nat)
    /\ (resolves pf [] DeferReply = false -> k = 0%nat /\ tail = [])
    /\ (accepts_all pf ->
        firstn k (planned chunks) = planned chunks /\ tail = [] /\ st = Fulfilled).
Proof.
  intros Hchat Hcmd Hgem Ha Hsplit.
  unfold on_interaction. rewrite Hchat, Hcmd. cbn [negb].
  change (str_eqb (lit "ask") (lit "ask")) with true. cbn [negb issue app].
  destruct (resolves pf [] DeferReply) eqn:Hd; cbn [negb].
  2:{ exists 0%nat, [], Rejected. cbn [firstn app].
      split; [reflexivity |]. split; [constructor |].
      split; [discriminate |]. split; [now split |].
      intros Hacc. now rewrite Hacc in Hd. }
  rewrite Hgem. pose proof Ha as Ht. apply truthy_true in Ht. rewrite Ht. cbn [negb].
  destruct (Z.leb_spec (len a) 2000) as [Hle | Hgt].
  - rewrite (splitMessage_fits a 2000 fuel Ha Hle) in Hsplit.
    injection Hsplit as <-.
    unfold planned, return_call, issue. cbn [shift or_empty app]. rewrite Ht.
    exists 1%nat, []. eexists. cbn [firstn app].
    split; [reflexivity |]. split; [constructor |].
    split; [lia |]. split; [discriminate |].
    intros Hacc. rewrite Hacc. now repeat split.
  - rewrite Hsplit. cbn [bind]. unfold planned.
    destruct (shift chunks) as [first rest].
    destruct (resolves pf [DeferReply] (EditReply (or_empty first))) eqn:He;
      cbn [negb].
    + destruct (follow_ups_spec pf rest [DeferReply; EditReply (or_empty first)])
        as (k & Hfst & Hall & Hacc').
      destruct (follow_ups pf [DeferReply; EditReply (or_empty first)] rest)
        as [h2 ok2].
      cbn [fst snd] in Hfst, Hall, Hacc'. subst h2.
      destruct ok2.
      * exists (S k), [], Fulfilled. cbn [firstn app]. rewrite app_nil_r.
        split; [reflexivity |]. split; [constructor |].
        split; [lia |]. split; [discriminate |].
        intros _. rewrite (Hall eq_refl). now repeat split.
      * destruct (on_error_spec pf
                    ([DeferReply; EditReply (or_empty first)]
                       ++ firstn k (map FollowUp rest))) as (tail & st & E & Hn).
        exists (S k), tail, st. rewrite E. cbn [firstn app].
        split; [reflexivity |]. split; [exact Hn |].
        split; [lia |]. split; [discriminate |].
        intros Hacc. specialize (Hacc' Hacc). discriminate.
    + destruct (on_error_spec pf [DeferReply; EditReply (or_empty first)])
        as (tail & st & E & Hn).
      exists 1%nat, tail, st. rewrite E. cbn [firstn app].
      split; [reflexivity |]. split; [exact Hn |].
      split; [lia |]. split; [discriminate |].
      intros Hacc. now rewrite Hacc in He.
Qed.



Lemma text_of_notice (c : call) : is_notice c -> text_of c = None.
Proof. destruct c; cbn; intros H; (reflexivity || contradiction). Qed.

(** Property X9.  The empty message.  For every [/ask] interaction that
    the answer producer answers, and whatever calls the platform rejects,
    the handler issues an [editReply] or [followUp] with the empty string
    exactly when [deferReply] resolved and the answer is longer than 2000
    characters and made of ['\n\n'] separators only: the chunker then
    returns no chunk and [chunks.shift() || ''] is the empty string. *)
Theorem on_interaction_empty_message (fuel : nat) (pf : platform) (a : str) :
  isChatInputCommand pf = true ->
  commandName pf = lit "ask" ->
  gemini pf = Some a ->
  (List.length a < fuel)%nat ->
  exists trace st,
    on_interaction fuel pf = Some (trace, st)
    /\ (Exists (fun c => text_of c = Some []) trace
        <-> resolves pf [] DeferReply = true
            /\ 2000 < len a
            /\ Forall (fun p => p = []) (split a)).
Proof.
  intros Hchat Hcmd Hgem Hfuel.
  destruct a as [| x a].
  - unfold on_interaction. rewrite Hchat, Hcmd, Hgem. cbn [negb].
    change (str_eqb (lit "ask") (lit "ask")) with true.
    cbn [negb issue app truthy return_call].
    destruct (resolves pf [] DeferReply); cbn [negb].
    + eexists. eexists. split; [reflexivity |].
      split; [| intros (_ & H & _); cbn in H; lia].
      intros H. inversion H as [? ? E | ? ? H1]; subst; [discriminate E |].
      inversion H1 as [? ? E | ? ? H2]; subst; [discriminate E | inversion H2].
    + eexists. eexists. split; [reflexivity |].
      split; [| intros (E & _); discriminate E].
      intros H. inversion H as [? ? E | ? ? H1]; subst; [discriminate E | inversion H1].
  - destruct (chunks_of_answer fuel (x :: a) Hfuel)
      as (chunks & Hsplit & Hne & _ & _ & Hnil).
    destruct (on_interaction_trace fuel pf (x :: a) chunks Hchat Hcmd Hgem
                ltac:(discriminate) Hsplit)
      as (k & tail & st & Hrun & Hn & Hk1 & Hk0 & _).
    exists (DeferReply :: firstn k (planned chunks) ++ tail), st.
    split; [exact Hrun |].
    rewrite Exists_cons, Exists_app. rewrite planned_nonempty by exact Hne.
    assert (Htail : ~ Exists (fun c => text_of c = Some []) tail).
    { rewrite Exists_exists. intros (c & Hin & Hc).
      rewrite Forall_forall in Hn. now rewrite (text_of_notice c (Hn c Hin)) in Hc. }
    destruct chunks as [| y rest].
    + assert (Hsep : 2000 < len (x :: a) /\ Forall (fun p => p = []) (split (x :: a))).
      { destruct (proj1 Hnil eq_refl) as [E | E]; [discriminate | exact E]. }
      destruct (resolves pf [] DeferReply) eqn:Hd.
      * specialize (Hk1 eq_refl). destruct k as [| k]; [lia |].
        split; [intros _; now split |].
        intros _. right. left. cbn [firstn]. now left.
      * destruct (Hk0 eq_refl) as [-> ->].
        split; [| intros [E _]; discriminate].
        intros [E | [E | E]]; [discriminate | inversion E | inversion E].
    + split.
      * intros [E | [E | E]]; [discriminate | | contradiction].
        exfalso. rewrite Exists_exists in E. destruct E as (c & Hin & Hc).
        apply In_firstn in Hin. rewrite Forall_forall in Hne.
        destruct Hin as [<- | Hin].
        -- cbn in Hc. injection Hc as ->. apply (Hne []); [now left | reflexivity].
        -- apply in_map_iff in Hin as (z & <- & Hz). cbn in Hc.
           injection Hc as ->. apply (Hne []); [now right | reflexivity].
      * intros (_ & Hgt & Hall). exfalso.
        assert (E : y :: rest = []) by (apply Hnil; right; now split).
        discriminate.
Qed.

Lemma on_interaction_empty_message_witness :
  exists trace st,
    on_interaction 2003
      (mkPlatform true (lit "ask") (Some (List.concat (repeat sep 1001)))
         (fun _ _ => true) (fun _ => true))
    = Some (trace, st)
    /\ (Exists (fun c => text_of c = Some []) trace
        <-> resolves
              (mkPlatform true (lit "ask") (Some (List.concat (repeat sep 1001)))
                 (fun _ _ => true) (fun _ => true)) [] DeferReply = true
            /\ 2000 < len (List.concat (repeat sep 1001))
            /\ Forall (fun p => p = []) (split (List.concat (repeat sep 1001)))).
Proof.
  apply (on_interaction_empty_message 2003
           (mkPlatform true (lit "ask") (Some (List.concat (repeat sep 1001)))
              (fun _ _ => true) (fun _ => true))
           (List.concat (repeat sep 1001)));
    [reflexivity | reflexivity | reflexivity | vm_compute; lia].
Defined.

(** Property X10.  The size of the messages.  For every [/ask]
    interaction that the answer producer answers, and whatever calls the
    platform rejects, every [editReply] or [followUp] that carries text
    of the answer has at most 2000 characters or is a whole paragraph of
    the answer; so when no paragraph of the answer is longer than 2000
    characters, each of these messages fits the limit of the platform.
    The other messages are the fixed error notices. *)
Theorem on_interaction_message_size (fuel : nat) (pf : platform) (a : str) :
  isChatInputCommand pf = true ->
  commandName pf = lit "ask" ->
  gemini pf = Some a ->
  (List.length a < fuel)%nat ->
  exists trace st,
    on_interaction fuel pf = Some (trace, st)
    /\ Forall (fun c => forall s, text_of c = Some s ->
                                  len s <= 2000 \/ In s (split a)) trace
    /\ (Forall (fun p => len p <= 2000) (split a) ->
        Forall (fun c => forall s, text_of c = Some s -> len s <= 2000) trace).
Proof.
  intros Hchat Hcmd Hgem Hfuel.
  enough (exists trace st,
             on_interaction fuel pf = Some (trace, st)
             /\ Forall (fun c => forall s, text_of c = Some s ->
                                           len s <= 2000 \/ In s (split a)) trace)
    as (trace & st & H & Hsize).
  { exists trace, st. split; [exact H |]. split; [exact Hsize |].
    intros Hfit. rewrite Forall_forall in *. intros c Hc s Hs.
    destruct (Hsize c Hc s Hs) as [Hle | Hin]; [exact Hle | now apply Hfit]. }
  destruct a as [| x a].
  - unfold on_interaction. rewrite Hchat, Hcmd, Hgem. cbn [negb].
    change (str_eqb (lit "ask") (lit "ask")) with true.
    cbn [negb issue app truthy return_call].
    assert (Hno : forall s, text_of (EditReply no_response) = Some s ->
                            len s <= 2000 \/ In s (split [])).
    { intros s E. injection E as <-. left. vm_compute. discriminate. }
    destruct (resolves pf [] DeferReply); cbn [negb];
      eexists; eexists; (split; [reflexivity |]);
      repeat (constructor; [first [exact Hno | intros s E; discriminate E] |]);
      constructor.
  - destruct (chunks_of_answer fuel (x :: a) Hfuel)
      as (chunks & Hsplit & Hne & Hsize & _).
    destruct (on_interaction_trace fuel pf (x :: a) chunks Hchat Hcmd Hgem
                ltac:(discriminate) Hsplit)
      as (k & tail & st & Hrun & Hn & _).
    exists (DeferReply :: firstn k (planned chunks) ++ tail), st.
    split; [exact Hrun |].
    constructor; [intros s E; discriminate E |].
    apply Forall_app. split.
    + rewrite planned_nonempty by exact Hne.
      rewrite Forall_forall in *. intros c Hc s Hs. apply In_firstn in Hc.
      destruct chunks as [| y rest].
      * destruct Hc as [<- | []]. injection Hs as <-. left. cbn. lia.
      * destruct Hc as [<- | Hc].
        -- injection Hs as <-. apply Hsize. now left.
        -- apply in_map_iff in Hc as (z & <- & Hz). injection Hs as <-.
           apply Hsize. now right.
    + rewrite Forall_forall in *. intros c Hc s Hs.
      now rewrite (text_of_notice c (Hn c Hc)) in Hs.
Qed.

Lemma on_interaction_message_size_witness :
  exists trace st,
    on_interaction 4501
      (mkPlatform true (lit "ask") (Some (repeat "a"%char 4500))
         (fun h c => match c with FollowUp _ => false | _ => true end)
         (fun _ => true))
    = Some (trace, st)
    /\ Forall (fun c => forall s, text_of c = Some s ->
                 len s <= 2000 \/ In s (split (repeat "a"%char 4500))) trace
    /\ (Forall (fun p => len p <= 2000) (split (repeat "a"%char 4500)) ->
        Forall (fun c => forall s, text_of c = Some s -> len s <= 2000) trace).
Proof.
  apply (on_interaction_message_size 4501
           (mkPlatform true (lit "ask") (Some (repeat "a"%char 4500))
              (fun h c => match c with FollowUp _ => false | _ => true end)
              (fun _ => true))
           (repeat "a"%char 4500));
    [reflexivity | reflexivity | reflexivity | rewrite repeat_length; lia].
Defined.

(** Property X11.  The whole answer is delivered when no call is
    rejected: for every [/ask] interaction that the answer producer
    answers with a non-empty text, on a platform that accepts every call,
    the promise of the handler is fulfilled and the texts of the calls,
    concatenated in the order of the calls, are the answer up to line
    feeds. *)
Theorem on_interaction_delivers_the_answer (fuel : nat) (pf : platform) (a : str) :
  isChatInputCommand pf = true ->
  commandName pf = lit "ask" ->
  gemini pf = Some a ->
  a <> [] ->
  (List.length a < fuel)%nat ->
  accepts_all pf ->
  exists trace,
    on_interaction fuel pf = Some (trace, Fulfilled)
    /\ without_nl (List.concat (texts trace)) = without_nl a.
Proof.
  intros Hchat Hcmd Hgem Ha Hfuel Hall.
  destruct (chunks_of_answer fuel a Hfuel) as (chunks & Hsplit & Hne & _ & Hnl & _).
  destruct (on_interaction_trace fuel pf a chunks Hchat Hcmd Hgem Ha Hsplit)
    as (k & tail & st & Hrun & _ & _ & _ & Hacc).
  destruct (Hacc Hall) as (E & -> & ->).
  exists (DeferReply :: planned chunks).
  split; [now rewrite Hrun, E, app_nil_r |].
  change (texts (DeferReply :: planned chunks)) with (texts (planned chunks)).
  rewrite (texts_planned _ Hne), <- Hnl.
  destruct chunks; reflexivity.
Qed.

Lemma on_interaction_delivers_the_answer_witness :
  exists trace,
    on_interaction 4501
      (mkPlatform true (lit "ask") (Some (repeat "a"%char 4500))
         (fun _ _ => true) (fun _ => true))
    = Some (trace, Fulfilled)
    /\ without_nl (List.concat (texts trace)) = without_nl (repeat "a"%char 4500).
Proof.
  apply (on_interaction_delivers_the_answer 4501
           (mkPlatform true (lit "ask") (Some (repeat "a"%char 4500))
              (fun _ _ => true) (fun _ => true))
           (repeat "a"%char 4500));
    [reflexivity | reflexivity | reflexivity | discriminate
    | rewrite repeat_length; lia | intros h c; reflexivity].
Defined.
